(** * iptables_exporter: the collector of [iptables_exporter.go]

    A shallow embedding of the Prometheus collector of
    [steigr/iptables_exporter] ([NewCollector], [Describe], [Collect],
    [main]) together with the ruleset parser it calls, and the properties
    of its specification.

    - [Float64]        Go's [float64] as IEEE 754 binary64 ([SpecFloat]);
    - [Iptables]       the data handed over by package [iptables];
    - [Exporter]       [iptables_exporter.go];
    - [Parser]         the ruleset parser, after the specification;
    - [ExporterSpec], [ExtraSpec]
                       the notions the statements are written with;
    - [Float64Facts], [ExporterFacts], [CollectorFacts], [ParserFacts]
                       the properties of the specification;
    - [ValueFacts], [MergeFacts], [ScrapeFacts]
                       further properties of the conversions, of the merge
                       loop and of a whole scrape. *)

From Stdlib Require Import ZArith NArith Lia List String Ascii.
From Stdlib Require Import Floats.SpecFloat.
From stdpp Require Import gmap strings list fin_maps.

(** ** Go's float64 *)

Module Float64.
Local Open Scope Z_scope.

Definition prec : Z := 53.
Definition emax : Z := 1024.

(** A [float64] value: binary64, no NaN payload. *)
Definition float64 : Type := spec_float.

#[export] Instance float64_eq_dec : EqDecision float64.
Proof. solve_decision. Defined.

(** The conversion [float64(n)] of a [uint64]: round to nearest, ties to
    even. *)
Definition of_uint64 (n : N) : float64 :=
  binary_normalize prec emax (Z.of_N n) 0 false.

(** [x + y] on [float64]. *)
Definition add (x y : float64) : float64 := SFadd prec emax x y.

(** The literals [0] and [1] used for the success gauge. *)
Definition zero : float64 := S754_zero false.
Definition one : float64 := of_uint64 1.

(** The number a finite float stands for, when that number is an integer
    (every float of magnitude at least [2^52] is one); its integer part
    otherwise. Infinities and NaN give [0]. *)
Definition to_Z (x : float64) : Z :=
  match x with
  | S754_finite s m e =>
      cond_Zopp s (if 0 <=? e then Zpos m * 2 ^ e else Zpos m / 2 ^ (- e))
  | _ => 0
  end.

(** [float64] accumulation in list order: [((x0 + x1) + x2) + ...]. *)
Definition sum_from (acc : float64) (ns : list N) : float64 :=
  foldl (fun a n => add a (of_uint64 n)) acc ns.

(** The [float64] sum of a list of counters, accumulated in list order from
    the first one on, as [x = float64(n0); x += float64(n1); ...] does;
    [0] for no counter at all. *)
Definition float64_sum (ns : list N) : float64 :=
  match ns with
  | [] => zero
  | n :: ns => sum_from (of_uint64 n) ns
  end.

(** The exact total of a list of counters. *)
Definition total (ns : list N) : N := foldr N.add 0%N ns.

(** The binary64 representation of an integer [0 < v <= 2^53]: a mantissa
    of exactly 53 bits. *)
Definition canon_mantissa (v : Z) : Z :=
  let d := Z.log2 v + 1 in
  if d <=? prec then v * 2 ^ (prec - d) else v / 2 ^ (d - prec).

Definition canon (v : Z) : float64 :=
  S754_finite false (Z.to_pos (canon_mantissa v)) (Z.log2 v + 1 - prec).

End Float64.

(** ** The data of package [iptables] *)

Module Iptables.
(** Modelled from the spec: the types [Rule], [Chain], [Table] and
    [Tables] of package [iptables] are declared outside
    [iptables_exporter.go]; their shape is the one [Collect] relies on
    ([chain.Policy], [chain.Packets], [chain.Bytes], [chain.Rules],
    [rule.Rule], [rule.Packets], [rule.Bytes], and [range] over both
    maps). Counters are [uint64]; [rule.Rule] is the identifier derived
    from the rule body with the capture expression. *)
Record Rule : Type := mkRule {
  rulePackets : N;
  ruleBytes : N;
  ruleRule : string
}.

Record Chain : Type := mkChain {
  Policy : string;
  Packets : N;
  Bytes : N;
  Rules : list Rule
}.

Abbreviation Table := (gmap string Chain).
Abbreviation Tables := (gmap string (gmap string Chain)).

(** A rule as the dump has it: counters and the raw body. *)
Record RawRule : Type := mkRawRule {
  rawPackets : N;
  rawBytes : N;
  rawBody : string
}.

(** Modelled from the spec: identifier derivation happens in package
    [iptables], outside [iptables_exporter.go]. [identifier] stands for
    the compiled capture expression applied to a rule body: [Some id] when
    it matches, [None] when it does not, in which case the rule is left
    out of the per-identifier output. *)
Definition deriveRules (identifier : string -> option string)
    (raw : list RawRule) : list Rule :=
  omap (fun r => id ← identifier (rawBody r);
                 Some (mkRule (rawPackets r) (rawBytes r) id)) raw.

(** The default capture expression [.*]: the identifier is the whole rule
    body. *)
Definition matchEverything (body : string) : option string := Some body.
End Iptables.

(** ** [iptables_exporter.go] *)

Module Exporter.
Import Float64 Iptables.
Local Open Scope string_scope.

Record ruleValues : Type := mkRuleValues {
  bytes : float64;
  packets : float64
}.

Abbreviation ruleCounter := (gmap string ruleValues).

(** A metric descriptor: name, help text and variable labels. *)
Record Desc : Type := NewDesc {
  fqName : string;
  help : string;
  variableLabels : list string
}.

Definition scrapeDurationDesc : Desc :=
  NewDesc "iptables_scrape_duration_seconds"
          "iptables_exporter: Duration of scraping iptables." [].

Definition scrapeSuccessDesc : Desc :=
  NewDesc "iptables_scrape_success"
          "iptables_exporter: Whether scraping iptables succeeded." [].

Definition defaultBytesDesc : Desc :=
  NewDesc "iptables_default_bytes_total"
          "iptables_exporter: Total bytes matching a chain's default policy."
          ["table"; "chain"; "policy"].

Definition defaultPacketsDesc : Desc :=
  NewDesc "iptables_default_packets_total"
          "iptables_exporter: Total packets matching a chain's default policy."
          ["table"; "chain"; "policy"].

Definition ruleBytesDesc : Desc :=
  NewDesc "iptables_rule_bytes_total"
          "iptables_exporter: Total bytes matching a rule."
          ["table"; "chain"; "rule"].

Definition rulePacketsDesc : Desc :=
  NewDesc "iptables_rule_packets_total"
          "iptables_exporter: Total packets matching a rule."
          ["table"; "chain"; "rule"].

Inductive ValueType : Type := GaugeValue | CounterValue.

(** What [prometheus.MustNewConstMetric] builds. Every call of [Collect]
    passes as many label values as its descriptor has labels
    ([CollectorFacts.Collect_label_arity]) and label values are taken to be
    valid UTF-8, so the constructor is taken as total. *)
Record Metric : Type := MustNewConstMetric {
  desc : Desc;
  valueType : ValueType;
  value : float64;
  labelValues : list string
}.

#[export] Instance Desc_eq_dec : EqDecision Desc.
Proof. solve_decision. Defined.
#[export] Instance ValueType_eq_dec : EqDecision ValueType.
Proof. solve_decision. Defined.
#[export] Instance Metric_eq_dec : EqDecision Metric.
Proof. solve_decision. Defined.

(** Lines 136-148: the body of the loop over [chain.Rules]. The map holds
    pointers that nothing else aliases, so updating through the pointer
    is an update of the map. *)
Definition mergeRule (rulesCounters : ruleCounter) (rule : Rule) : ruleCounter :=
  match rulesCounters !! ruleRule rule with
  | Some v =>
      <[ruleRule rule :=
          {| bytes := add (bytes v) (of_uint64 (ruleBytes rule));
             packets := add (packets v) (of_uint64 (rulePackets rule)) |}]>
        rulesCounters
  | None =>
      <[ruleRule rule :=
          {| bytes := of_uint64 (ruleBytes rule);
             packets := of_uint64 (rulePackets rule) |}]>
        rulesCounters
  end.

(** [rulesCounters] after the loop. *)
Definition dedupRules (rules : list Rule) : ruleCounter :=
  foldl mergeRule ∅ rules.

(** Lines 149-166. Go leaves the order of [range] over a map open;
    [map_to_list] fixes one order, and no statement below depends on
    which. *)
Definition ruleMetrics (tableName chainName : string)
    (rulesCounters : ruleCounter) : list Metric :=
  '(ruleName, ruleData) ← map_to_list rulesCounters;
  [ MustNewConstMetric rulePacketsDesc CounterValue (packets ruleData)
      [tableName; chainName; ruleName];
    MustNewConstMetric ruleBytesDesc CounterValue (bytes ruleData)
      [tableName; chainName; ruleName] ].

(** Lines 119-166: what one chain contributes. *)
Definition chainMetrics (tableName chainName : string) (chain : Chain)
    : list Metric :=
  [ MustNewConstMetric defaultPacketsDesc CounterValue
      (of_uint64 (Packets chain)) [tableName; chainName; Policy chain];
    MustNewConstMetric defaultBytesDesc CounterValue
      (of_uint64 (Bytes chain)) [tableName; chainName; Policy chain] ]
  ++ ruleMetrics tableName chainName (dedupRules (Rules chain)).

Definition tableMetrics (tableName : string) (table : Table) : list Metric :=
  '(chainName, chain) ← map_to_list table;
  chainMetrics tableName chainName chain.

Definition tablesMetrics (tables : Tables) : list Metric :=
  '(tableName, table) ← map_to_list tables;
  tableMetrics tableName table.

Definition noOutputError : string :=
  "no output from iptables-save; this is probably due to insufficient permissions".

(** A function that returns or panics. *)
Inductive outcome (A : Type) : Type :=
| Returns (a : A)
| Panics (msg : string).
Arguments Returns {A} a.
Arguments Panics {A} msg.

Section Collector.
(** The regexp library and the firewall: [Compile] is [regexp.Compile],
    [GetTables] is [iptables.GetTables] at the time of the scrape, its
    result a table map and an error ([None] for [nil]). *)
Context {Regexp : Type}.
Variable Compile : string -> Regexp + string.
Variable GetTables : Regexp -> Tables * option string.

Record collector : Type := mkCollector { capture : Regexp }.

Definition MustCompile (str : string) : outcome Regexp :=
  match Compile str with
  | inl re => Returns re
  | inr e => Panics ("regexp: Compile(" ++ str ++ "): " ++ e)
  end.

Definition NewCollector (captureRE : string) : outcome collector :=
  match MustCompile captureRE with
  | Returns re => Returns {| capture := re |}
  | Panics msg => Panics msg
  end.

(** [Describe]: the descriptors sent on [descChan], in order. *)
Definition Describe (c : collector) : list Desc :=
  [ scrapeDurationDesc; scrapeSuccessDesc; defaultBytesDesc;
    defaultPacketsDesc; ruleBytesDesc; rulePacketsDesc ].

(** Lines 106-108: the error the scrape goes on with. *)
Definition scrapeError (tables : Tables) (err : option string)
    : option string :=
  match err with
  | None => if bool_decide (size tables = 0%nat) then Some noOutputError
            else None
  | Some e => Some e
  end.

(** [Collect]: the metrics sent on [metricChan], in order, and the
    lines given to [log.Error]. [duration] is [duration.Seconds()].
    The [log.Debugf] lines of the merge loop are left out. *)
Definition Collect (c : collector) (duration : float64)
    : list Metric * list string :=
  let '(tables, err) := GetTables (capture c) in
  let durationMetric :=
    MustNewConstMetric scrapeDurationDesc GaugeValue duration [] in
  match scrapeError tables err with
  | Some e =>
      ([durationMetric;
        MustNewConstMetric scrapeSuccessDesc GaugeValue zero []], [e])
  | None =>
      (durationMetric
         :: MustNewConstMetric scrapeSuccessDesc GaugeValue one []
         :: tablesMetrics tables, [])
  end.

(** The command line flags of [main], with their defaults. *)
Record Flags : Type := mkFlags {
  listenAddress : string;
  metricsPath : string;
  captureRE : string
}.

Definition defaultFlags : Flags :=
  {| listenAddress := ":9455"; metricsPath := "/metrics"; captureRE := ".*" |}.

Inductive event : Type :=
| Infoln (msg : string)
| MustRegister (c : collector)
| Handle (pattern : string)
| ListenAndServe (addr : string)
| Panic (msg : string).

(** [main] after flag parsing, as the trace of what it does up to the
    blocking [http.ListenAndServe]; a panic of [NewCollector] ends it. *)
Definition main (flags : Flags) : list event :=
  [Infoln "Starting iptables_exporter"; Infoln "Build context"] ++
  match NewCollector (captureRE flags) with
  | Panics msg => [Panic msg]
  | Returns c =>
      [MustRegister c; Handle (metricsPath flags); Handle "/";
       Infoln "Listening on"; ListenAndServe (listenAddress flags)]
  end.
End Collector.
End Exporter.

(** ** The ruleset parser *)

Module Parser.
Import Iptables.
Local Open Scope string_scope.

(** Modelled from the spec: the kinds of [ParseError] of the ruleset parser
    of package [iptables], which is not part of [iptables_exporter.go]. The
    specification names the first three; it calls a chain or rule line
    outside any table an error without naming its kind, which is
    [OutsideTable] here. *)
Inductive Violation : Type :=
| MalformedChainLine
| UnknownChain
| UnrecognizedLine
| OutsideTable.

(** Modelled from the spec: the [ParseError] of the missing parser, with
    the 1-based number of the offending line, its content and the rule it
    violates. *)
Record ParseError : Type := mkParseError {
  lineNumber : nat;
  lineContent : string;
  violated : Violation
}.

(** Modelled from the spec: a chain of the parsed hierarchy, before
    identifiers are derived; [None] is the no-policy sentinel of a
    user-defined chain. *)
Record RawChain : Type := mkRawChain {
  rawPolicy : option string;
  rawChainPackets : N;
  rawChainBytes : N;
  rawRules : list RawRule
}.

Abbreviation RawTable := (gmap string RawChain).

(** Modelled from the spec: the [Ruleset] of the missing parser, tables in
    the order of the dump. *)
Definition Ruleset : Type := list (string * RawTable).

(** The tables closed so far and the table context, if one is open. *)
Record State : Type := mkState {
  closed : Ruleset;
  current : option (string * RawTable)
}.

Definition initial : State := {| closed := []; current := None |}.

Definition newline : ascii := "010"%char.

(** The pieces of [s] between occurrences of [sep]. *)
Fixpoint splitOn (sep : ascii) (s : string) : list string :=
  match s with
  | EmptyString => [""]
  | String c s' =>
      if Ascii.eqb c sep then "" :: splitOn sep s'
      else match splitOn sep s' with
           | piece :: pieces => String c piece :: pieces
           | [] => [String c ""]
           end
  end.

Definition lines (rawText : string) : list string := splitOn newline rawText.

Definition isBlank (c : ascii) : bool :=
  Ascii.eqb c " "%char || Ascii.eqb c "009"%char || Ascii.eqb c "013"%char.

Fixpoint trimLeft (s : string) : string :=
  match s with
  | String c s' => if isBlank c then trimLeft s' else s
  | EmptyString => EmptyString
  end.

Fixpoint trimRight (s : string) : string :=
  match s with
  | String c s' =>
      match trimRight s' with
      | EmptyString => if isBlank c then EmptyString else String c EmptyString
      | t => String c t
      end
  | EmptyString => EmptyString
  end.

Definition trim (s : string) : string := trimRight (trimLeft s).

Definition digitValue (c : ascii) : option N :=
  let n := N_of_ascii c in
  if (48 <=? n)%N && (n <=? 57)%N then Some (n - 48)%N else None.

Fixpoint parseDigits (acc : N) (s : string) : option N :=
  match s with
  | EmptyString => Some acc
  | String c s' => d ← digitValue c; parseDigits (10 * acc + d)%N s'
  end.

(** A non-negative 64-bit integer in decimal. *)
Definition parseUint (s : string) : option N :=
  match s with
  | EmptyString => None
  | _ => n ← parseDigits 0 s; if (n <? 2 ^ 64)%N then Some n else None
  end.

(** The bracketed pair [[<packets>:<bytes>]]. *)
Definition parseCounters (s : string) : option (N * N) :=
  match s with
  | String "[" body =>
      match splitOn ":" body with
      | [p; b] =>
          match splitOn "]" b with
          | [b'; ""] => packets ← parseUint p; bytes ← parseUint b';
                        Some (packets, bytes)
          | _ => None
          end
      | _ => None
      end
  | _ => None
  end.

(** [s] up to its first space, and what follows that space. *)
Fixpoint cutAtSpace (s : string) : string * string :=
  match s with
  | EmptyString => (EmptyString, EmptyString)
  | String c s' =>
      if Ascii.eqb c " " then (EmptyString, s')
      else let '(w, rest) := cutAtSpace s' in (String c w, rest)
  end.

(** A chain line [:<name> <policy> [<packets>:<bytes>]], taken apart. *)
Definition chainLine (line : string) : option (string * option string * N * N) :=
  match line with
  | String ":" decl =>
      match splitOn " " decl with
      | [name; policy; counters] =>
          '(packets, bytes) ← parseCounters counters;
          Some (name, if String.eqb policy "-" then None else Some policy,
                packets, bytes)
      | _ => None
      end
  | _ => None
  end.

(** A rule line [[<packets>:<bytes>] -A <chain> ...], taken apart: the
    chain it appends to and the rule, whose body keeps [-A <chain>]. *)
Definition ruleLine (line : string) : option (string * RawRule) :=
  let '(counters, body) := cutAtSpace line in
  '(packets, bytes) ← parseCounters counters;
  match body with
  | String "-" (String "A" (String " " target)) =>
      Some (fst (cutAtSpace target), mkRawRule packets bytes body)
  | _ => None
  end.

(** Modelled from the spec: one line of the dump, handled by the missing
    parser in the table context [st]; the grammar of section 4.1, cases in
    its order. *)
Definition step (st : State) (line : string) : Violation + State :=
  if String.eqb (trim line) "" then inr st
  else match line with
  | String "#" _ => inr st
  | String "*" name =>
      inr {| closed := (closed st ++ option_list (current st))%list;
             current := Some (trim name, ∅) |}
  | String ":" _ =>
      match chainLine line with
      | None => inl MalformedChainLine
      | Some (name, policy, packets, bytes) =>
          match current st with
          | None => inl OutsideTable
          | Some (tableName, table) =>
              inr {| closed := closed st;
                     current := Some (tableName,
                       <[name := mkRawChain policy packets bytes []]> table) |}
          end
      end
  | _ =>
      if String.eqb line "COMMIT"
      then inr {| closed := (closed st ++ option_list (current st))%list;
                  current := None |}
      else match ruleLine line with
      | None => inl UnrecognizedLine
      | Some (target, rule) =>
          match current st with
          | None => inl OutsideTable
          | Some (tableName, table) =>
              match table !! target with
              | None => inl UnknownChain
              | Some chain =>
                  inr {| closed := closed st;
                         current := Some (tableName,
                           <[target := mkRawChain (rawPolicy chain)
                                         (rawChainPackets chain)
                                         (rawChainBytes chain)
                                         (rawRules chain ++ [rule])%list]> table) |}
              end
          end
      end
  end.

(** The lines from number [n] on, one after the other; the first line that
    violates the grammar ends the pass. *)
Fixpoint parseLines (n : nat) (st : State) (ls : list string)
    : ParseError + State :=
  match ls with
  | [] => inr st
  | line :: ls' =>
      match step st line with
      | inl v => inl (mkParseError n line v)
      | inr st' => parseLines (S n) st' ls'
      end
  end.

(** Modelled from the spec: [parse(rawText) -> Result<Ruleset, ParseError>]
    of the missing parser. *)
Definition parse (rawText : string) : ParseError + Ruleset :=
  match parseLines 1 initial (lines rawText) with
  | inl e => inl e
  | inr st => inr (closed st ++ option_list (current st))%list
  end.

(** The lines of [ls] are all accepted from [st] on and lead to [st']. *)
Fixpoint accepts (st : State) (ls : list string) : option State :=
  match ls with
  | [] => Some st
  | line :: ls' =>
      match step st line with
      | inl _ => None
      | inr st' => accepts st' ls'
      end
  end.

(** The line of the specification's example and a dump around it. *)
Definition badChainLine : string := ":CHAIN ACCEPT [x:0]".

Definition badDump : string :=
  "*filter" ++ String newline
    (":INPUT ACCEPT [10:100]" ++ String newline
       (badChainLine ++ String newline ("COMMIT" ++ String newline ""))).

Definition goodDump : string :=
  "# Generated by iptables-save" ++ String newline
    ("*filter" ++ String newline
       (":INPUT ACCEPT [10:100]" ++ String newline
          ("[3:30] -A INPUT -j ACCEPT" ++ String newline
             ("COMMIT" ++ String newline "")))).
End Parser.

(** ** Notions the statements are written with *)

Module ExporterSpec.
Import Float64 Iptables Exporter.
Local Open Scope string_scope.

(** The rules of a chain that carry identifier [k], in chain order. *)
Definition rulesOf (k : string) (rules : list Rule) : list Rule :=
  filter (fun r => ruleRule r = k) rules.

(** One step of the merge loop, seen from a single key. *)
Definition accumulate (o : option ruleValues) (r : Rule) : option ruleValues :=
  Some match o with
       | Some v => {| bytes := add (bytes v) (of_uint64 (ruleBytes r));
                      packets := add (packets v) (of_uint64 (rulePackets r)) |}
       | None => {| bytes := of_uint64 (ruleBytes r);
                    packets := of_uint64 (rulePackets r) |}
       end.

(** The entry the loop builds out of the rules of one identifier. *)
Definition mergedEntry (rs : list Rule) : ruleValues :=
  {| bytes := float64_sum (ruleBytes <$> rs);
     packets := float64_sum (rulePackets <$> rs) |}.

(** The rules of identifier [k] stay within [2^53] in packets and bytes. *)
Definition withinExact (k : string) (rules : list Rule) : Prop :=
  (total (rulePackets <$> rulesOf k rules) <= 2 ^ 53)%N
  /\ (total (ruleBytes <$> rulesOf k rules) <= 2 ^ 53)%N.

(** The entry that holds the exact totals of the rules of one identifier. *)
Definition exactEntry (rs : list Rule) : ruleValues :=
  {| bytes := of_uint64 (total (ruleBytes <$> rs));
     packets := of_uint64 (total (rulePackets <$> rs)) |}.

Definition allow (p b : N) : Rule := mkRule p b "allow".

(** The labels of a per-identifier metric. *)
Definition ruleLabels (tableName chainName k : string) : list string :=
  [tableName; chainName; k].

(** The two metrics [Collect] sends for one entry of [rulesCounters]. *)
Definition entryMetrics (tableName chainName k : string) (v : ruleValues)
    : list Metric :=
  [ MustNewConstMetric rulePacketsDesc CounterValue (packets v)
      (ruleLabels tableName chainName k);
    MustNewConstMetric ruleBytesDesc CounterValue (bytes v)
      (ruleLabels tableName chainName k) ].

Definition sumZ (l : list Z) : Z := foldr Z.add 0%Z l.

(** The sum of the per-identifier packet (byte) counters of a chain after
    aggregation, each taken at the number it stands for. *)
Definition aggregatedPackets (m : ruleCounter) : Z :=
  sumZ ((fun e => to_Z (packets e.2)) <$> map_to_list m).

Definition aggregatedBytes (m : ruleCounter) : Z :=
  sumZ ((fun e => to_Z (bytes e.2)) <$> map_to_list m).

(** The sum of the raw rule counters of a chain. *)
Definition rawPacketsTotal (raw : list RawRule) : Z :=
  Z.of_N (total (rawPackets <$> raw)).

Definition rawBytesTotal (raw : list RawRule) : Z :=
  Z.of_N (total (rawBytes <$> raw)).

(** Every rule of the chain matches the capture expression. *)
Definition allMatch (identifier : string -> option string)
    (raw : list RawRule) : Prop :=
  forall r, r ∈ raw -> is_Some (identifier (rawBody r)).

(** The two gauges every scrape sends. *)
Definition durationMetric (duration : float64) : Metric :=
  MustNewConstMetric scrapeDurationDesc GaugeValue duration [].

Definition successMetric (v : float64) : Metric :=
  MustNewConstMetric scrapeSuccessDesc GaugeValue v [].

(** A default-policy or per-identifier counter metric. *)
Definition isChainMetric (x : Metric) : Prop :=
  desc x ∈ [defaultPacketsDesc; defaultBytesDesc; rulePacketsDesc; ruleBytesDesc].

(** The metrics of descriptor [d] that belong to one chain. *)
Definition ofChain (d : Desc) (tableName chainName : string) (x : Metric) : Prop :=
  desc x = d /\ take 2 (labelValues x) = [tableName; chainName].

#[export] Instance isChainMetric_dec x : Decision (isChainMetric x).
Proof. unfold isChainMetric. apply _. Defined.

#[export] Instance ofChain_dec d t c x : Decision (ofChain d t c x).
Proof. unfold ofChain. apply _. Defined.

(** A small ruleset: table [filter] with the chain [INPUT]. *)
Definition inputChain : Chain :=
  mkChain "ACCEPT" 7 700 [allow 10 100; allow 20 200; allow 5 50].

Definition filterOnly : Tables := {[ "filter" := {[ "INPUT" := inputChain ]} ]}.
(** Two orders of the same three rules of one identifier. *)
Definition bigFirst : list Rule :=
  [mkRule (2 ^ 53) 0 "allow"; mkRule 1 0 "allow"; mkRule 1 0 "allow"].
Definition bigLast : list Rule :=
  [mkRule 1 0 "allow"; mkRule 1 0 "allow"; mkRule (2 ^ 53) 0 "allow"].

(** A chain of two rules with one body and packet counters [2^53], [3]. *)
Definition roundsUp : list RawRule :=
  [ mkRawRule (2 ^ 53) 0 "-A INPUT -j ACCEPT";
    mkRawRule 3 0 "-A INPUT -j ACCEPT" ].

(** The same rule appended twice to one chain. *)
Definition twice : list RawRule :=
  [ mkRawRule 10 100 "-A INPUT -j ACCEPT";
    mkRawRule 5 50 "-A INPUT -j ACCEPT" ].

(** A stand-in for [regexp.Compile] that rejects the expression [(]. *)
Definition noRegexp : string -> unit + string :=
  fun str => if decide (str = "(") then inr "missing closing )" else inl tt.

End ExporterSpec.

(** ** Further notions: values, series and groups of rules *)

Module ExtraSpec.
Import Float64 Iptables Exporter ExporterSpec.
Local Open Scope string_scope.

(** A [float64] that is neither NaN nor negative: [+0], a positive finite
    number or [+Inf]. *)
Definition nonNegative (x : float64) : Prop :=
  match x with
  | S754_zero false | S754_infinity false | S754_finite false _ _ => True
  | _ => False
  end.

(** What identifies a time series: the descriptor and the label values. *)
Definition series (x : Metric) : Desc * list string := (desc x, labelValues x).

(** The identifiers of a list of rules. *)
Definition identifiers (rules : list Rule) : list string := ruleRule <$> rules.

(** A chain of the three rules [a1], [b], [a2] whose counters are beyond
    [2^53], and the same chain with [b] moved to the front. *)
Definition interleaved : list Rule :=
  [ mkRule (2 ^ 53) (2 ^ 60) "a"; mkRule 7 9 "b"; mkRule 3 5 "a" ].

Definition regrouped : list Rule :=
  [ mkRule 7 9 "b"; mkRule (2 ^ 53) (2 ^ 60) "a"; mkRule 3 5 "a" ].
End ExtraSpec.

(** * Properties *)

(** ** Exact conversion and addition up to [2^53] *)

Module Float64Facts.
Import Float64.
Local Open Scope Z_scope.

(** *** Digits and shifts *)

Lemma digits2_pos_size p : digits2_pos p = Pos.size p.
Proof. induction p; simpl; congruence. Qed.

Lemma digits2_log2 p : Zpos (digits2_pos p) = Z.log2 (Zpos p) + 1.
Proof. rewrite digits2_pos_size. destruct p; simpl; lia. Qed.

Lemma iter_xO m d : Zpos (Pos.iter xO m d) = Zpos m * 2 ^ Zpos d.
Proof.
  induction d as [|d IH] using Pos.peano_ind.
  - simpl. lia.
  - rewrite Pos.iter_succ, Pos2Z.inj_succ, Z.pow_succ_r by lia.
    rewrite Pos2Z.inj_xO, IH. lia.
Qed.

Lemma iter_pos_nat {A} (f : A -> A) p x :
  SpecFloat.iter_pos f p x = Nat.iter (Pos.to_nat p) f x.
Proof.
  revert x. induction p as [p IH|p IH|]; intros x; cbn [SpecFloat.iter_pos].
  - rewrite !IH, Pos2Nat.inj_xI.
    replace (S (2 * Pos.to_nat p)) with (Pos.to_nat p + (Pos.to_nat p + 1))%nat by lia.
    rewrite !Nat.iter_add. reflexivity.
  - rewrite !IH, Pos2Nat.inj_xO.
    replace (2 * Pos.to_nat p)%nat with (Pos.to_nat p + Pos.to_nat p)%nat by lia.
    rewrite Nat.iter_add. reflexivity.
  - reflexivity.
Qed.

Lemma shr_1_even m :
  0 < m -> shr_1 (Build_shr_record (2 * m) false false)
           = Build_shr_record m false false.
Proof. destruct m; simpl; intros; try lia; reflexivity. Qed.

Lemma shr_nat_exact k m :
  0 < m ->
  Nat.iter k shr_1 (Build_shr_record (m * 2 ^ Z.of_nat k) false false)
  = Build_shr_record m false false.
Proof.
  revert m. induction k as [|k IH]; intros m Hm.
  - simpl. f_equal. lia.
  - rewrite Nat.iter_succ_r.
    replace (m * 2 ^ Z.of_nat (S k)) with (2 * (m * 2 ^ Z.of_nat k))
      by (rewrite Nat2Z.inj_succ, Z.pow_succ_r by lia; lia).
    rewrite shr_1_even by (apply Z.mul_pos_pos; [lia|apply Z.pow_pos_nonneg; lia]).
    apply IH, Hm.
Qed.

Lemma shr_exact m e p :
  0 < m ->
  shr (Build_shr_record (m * 2 ^ Zpos p) false false) e (Zpos p)
  = (Build_shr_record m false false, e + Zpos p).
Proof.
  intros Hm. unfold shr. rewrite iter_pos_nat.
  rewrite <- (positive_nat_Z p) at 1. rewrite shr_nat_exact by assumption.
  reflexivity.
Qed.

(** *** Rounding an integer of at most 53 bits is exact *)

Lemma log2_bound v : 0 < v <= 2 ^ 53 -> 0 <= Z.log2 v <= 53.
Proof.
  intros [H0 H1]. split; [apply Z.log2_nonneg|].
  rewrite <- (Z.log2_pow2 53) by lia. now apply Z.log2_le_mono.
Qed.

Lemma log2_53 v : 0 < v <= 2 ^ 53 -> Z.log2 v = 53 -> v = 2 ^ 53.
Proof.
  intros [H0 H1] H. destruct (Z.log2_spec v H0) as [Hl _].
  rewrite H in Hl. lia.
Qed.

Lemma canon_mantissa_shift v k :
  0 < v <= 2 ^ 53 -> 0 <= k -> 0 <= Z.log2 v + 1 - prec + k ->
  canon_mantissa v * 2 ^ (Z.log2 v + 1 - prec + k) = v * 2 ^ k.
Proof.
  intros Hv Hk Hs. pose proof (log2_bound v Hv) as Hl.
  unfold canon_mantissa, prec in *. cbv zeta.
  destruct (Z.leb_spec (Z.log2 v + 1) 53) as [Hd|Hd].
  - rewrite <- Z.mul_assoc, <- Z.pow_add_r by lia. f_equal. f_equal. lia.
  - assert (Z.log2 v = 53) as H53 by lia.
    rewrite H53, (log2_53 v Hv H53).
    replace (53 + 1 - 53 + k) with (1 + k) by lia.
    rewrite Z.pow_add_r by lia.
    change (2 ^ 53 / 2 ^ (53 + 1 - 53)) with (2 ^ 52).
    change (2 ^ 53) with (2 ^ 52 * 2 ^ 1). lia.
Qed.

Lemma canon_mantissa_unshift v k :
  0 < v <= 2 ^ 53 -> 0 <= k -> Z.log2 v + 1 - prec + k <= 0 ->
  canon_mantissa v = v * 2 ^ k * 2 ^ (- (Z.log2 v + 1 - prec + k)).
Proof.
  intros Hv Hk Hs. pose proof (log2_bound v Hv) as Hl.
  unfold canon_mantissa, prec in *. cbv zeta.
  destruct (Z.leb_spec (Z.log2 v + 1) 53) as [Hd|Hd]; [|lia].
  rewrite <- Z.mul_assoc, <- Z.pow_add_r by lia. f_equal. f_equal. lia.
Qed.

Lemma canon_mantissa_pos v : 0 < v <= 2 ^ 53 -> 0 < canon_mantissa v.
Proof.
  intros Hv. pose proof (log2_bound v Hv) as Hl.
  pose proof (canon_mantissa_shift v (53 - (Z.log2 v + 1 - prec)) Hv) as H.
  unfold prec in *.
  assert (0 < v * 2 ^ (53 - (Z.log2 v + 1 - 53))) as Hp
    by (apply Z.mul_pos_pos; [lia|apply Z.pow_pos_nonneg; lia]).
  rewrite <- H in Hp by lia.
  apply Z.mul_pos_cancel_r in Hp; [assumption|apply Z.pow_pos_nonneg; lia].
Qed.

Lemma canon_mantissa_log2 v :
  0 < v <= 2 ^ 53 -> Z.log2 (canon_mantissa v) + 1 = prec.
Proof.
  intros Hv. pose proof (log2_bound v Hv) as Hl.
  unfold canon_mantissa, prec in *. cbv zeta.
  destruct (Z.leb_spec (Z.log2 v + 1) 53) as [Hd|Hd].
  - rewrite Z.log2_mul_pow2 by lia. lia.
  - assert (Z.log2 v = 53) as H53 by lia.
    rewrite H53, (log2_53 v Hv H53). reflexivity.
Qed.

Lemma fexp_normal e : -1021 <= e -> fexp prec emax e = e - prec.
Proof. unfold fexp, SpecFloat.emin, prec, emax. lia. Qed.

(** A 53-bit mantissa followed by [k] zero bits rounds to itself. *)
Lemma binary_round_aux_exact m e k :
  Zpos (digits2_pos m) = prec -> 0 <= k -> -1074 <= e + k <= 971 ->
  binary_round_aux prec emax false (Zpos m * 2 ^ k) e loc_Exact
  = S754_finite false m (e + k).
Proof.
  intros Hd Hk He.
  assert (forall e', -1074 <= e' <= 971 ->
            shr_fexp prec emax (Zpos m) e' loc_Exact
            = (Build_shr_record (Zpos m) false false, e')) as Hstay.
  { intros e' He'. unfold shr_fexp. cbn [Zdigits2 shr_record_of_loc].
    rewrite Hd, fexp_normal by (unfold prec; lia).
    replace (prec + e' - prec - e') with 0 by lia. reflexivity. }
  unfold binary_round_aux.
  assert (shr_fexp prec emax (Zpos m * 2 ^ k) e loc_Exact
          = (Build_shr_record (Zpos m) false false, e + k)) as ->.
  { destruct k as [|p|p]; [| |lia].
    - rewrite Z.mul_1_r, Z.add_0_r. apply Hstay. lia.
    - unfold shr_fexp.
      assert (Zdigits2 (Zpos m * 2 ^ Zpos p) = prec + Zpos p) as ->.
      { rewrite <- iter_xO. cbn [Zdigits2]. rewrite digits2_log2, iter_xO.
        rewrite Z.log2_mul_pow2 by lia. rewrite digits2_log2 in Hd. lia. }
      rewrite fexp_normal by (unfold prec; lia).
      replace (prec + Zpos p + e - prec - e) with (Zpos p) by lia.
      cbn [shr_record_of_loc]. apply shr_exact. lia. }
  cbn [shr_m loc_of_shr_record round_nearest_even].
  rewrite Hstay by lia. cbn [shr_m].
  destruct (Z.leb_spec (e + k) (emax - prec)) as [_|Hlt]; [reflexivity|].
  unfold emax, prec in Hlt. lia.
Qed.

Lemma binary_round_int m e v :
  0 < v <= 2 ^ 53 -> e <= 0 -> Zpos m = v * 2 ^ (- e) ->
  binary_round prec emax false m e = canon v.
Proof.
  intros Hv He Hm. pose proof (log2_bound v Hv) as Hl.
  pose proof (canon_mantissa_pos v Hv) as Hc.
  pose proof (canon_mantissa_log2 v Hv) as Hcl.
  assert (Zpos (digits2_pos (Z.to_pos (canon_mantissa v))) = prec) as Hcd
    by (rewrite digits2_log2, Z2Pos.id by assumption; assumption).
  unfold binary_round, canon.
  assert (Zpos (digits2_pos m) + e = Z.log2 v + 1) as ->
    by (rewrite digits2_log2, Hm, Z.log2_mul_pow2 by lia; lia).
  rewrite fexp_normal by lia. unfold shl_align.
  destruct (Z.log2 v + 1 - prec - e) as [|p|p] eqn:Hs.
  - rewrite <- (Z.mul_1_r (Zpos m)). change 1 with (2 ^ 0) at 1.
    assert (Z.to_pos (canon_mantissa v) = m) as Hcm.
    { apply Pos2Z.inj. rewrite Z2Pos.id, Hm by assumption.
      rewrite <- (canon_mantissa_shift v (- e)) by (unfold prec in *; lia).
      replace (Z.log2 v + 1 - prec + - e) with 0 by lia. lia. }
    rewrite <- Hcm at 1. rewrite binary_round_aux_exact
      by (try assumption; unfold prec in *; lia).
    rewrite Hcm. f_equal. lia.
  - assert (Zpos m = Zpos (Z.to_pos (canon_mantissa v)) * 2 ^ Zpos p) as ->.
    { rewrite Z2Pos.id, Hm by assumption.
      rewrite <- (canon_mantissa_shift v (- e)) by (unfold prec in *; lia).
      f_equal. f_equal. lia. }
    rewrite binary_round_aux_exact by (try assumption; unfold prec in *; lia).
    f_equal. lia.
  - assert (Pos.iter xO m p = Z.to_pos (canon_mantissa v)) as ->.
    { apply Pos2Z.inj. rewrite iter_xO, Z2Pos.id, Hm by assumption.
      rewrite (canon_mantissa_unshift v (- e)) by (unfold prec in *; lia).
      f_equal. f_equal. lia. }
    rewrite <- (Z.mul_1_r (Zpos _)). change 1 with (2 ^ 0) at 1.
    rewrite binary_round_aux_exact by (try assumption; unfold prec in *; lia).
    f_equal. lia.
Qed.

Lemma of_uint64_canon (n : N) :
  (0 < n <= 2 ^ 53)%N -> of_uint64 n = canon (Z.of_N n).
Proof.
  intros Hn. unfold of_uint64. destruct n as [|p]; [lia|].
  cbn [Z.of_N binary_normalize]. apply binary_round_int; [|lia|lia].
  change (2 ^ 53) with (Z.of_N (2 ^ 53)). lia.
Qed.

(** *** Adding integers is exact up to [2^53] *)

Lemma shl_align_fst mx ex ez :
  ez <= ex -> Zpos (fst (shl_align mx ex ez)) = Zpos mx * 2 ^ (ex - ez).
Proof.
  intros Hle. unfold shl_align.
  destruct (ez - ex) as [|p|p] eqn:Hs; cbn [fst]; [| lia |].
  - replace (ex - ez) with 0 by lia. lia.
  - rewrite iter_xO. f_equal. f_equal. lia.
Qed.

Lemma add_canon a b :
  0 < a -> 0 < b -> a + b <= 2 ^ 53 ->
  add (canon a) (canon b) = canon (a + b).
Proof.
  intros Ha Hb Hab.
  assert (0 < a <= 2 ^ 53) as Ha' by lia.
  assert (0 < b <= 2 ^ 53) as Hb' by lia.
  pose proof (log2_bound a Ha') as Hla. pose proof (log2_bound b Hb') as Hlb.
  assert (Z.log2 a <> 53) as Hna by (intros H; apply log2_53 in H; lia).
  assert (Z.log2 b <> 53) as Hnb by (intros H; apply log2_53 in H; lia).
  pose proof (canon_mantissa_pos a Ha') as Hca.
  pose proof (canon_mantissa_pos b Hb') as Hcb.
  unfold add, canon. cbn [SFadd].
  set (ea := Z.log2 a + 1 - prec). set (eb := Z.log2 b + 1 - prec).
  set (ez := Z.min ea eb).
  assert (ez <= ea /\ ez <= eb /\ ez <= 0) as (Hza & Hzb & Hz0)
    by (unfold ez, ea, eb, prec; lia).
  cbn [cond_Zopp Z.add binary_normalize].
  apply binary_round_int; [lia | assumption |].
  rewrite Pos2Z.inj_add, !shl_align_fst, !Z2Pos.id by assumption.
  rewrite (canon_mantissa_unshift a 0), (canon_mantissa_unshift b 0)
    by (unfold prec in *; lia).
  fold ea eb. rewrite !Z.add_0_r, !Z.mul_1_r.
  rewrite <- !Z.mul_assoc, <- !Z.pow_add_r by (unfold ea, eb, prec in *; lia).
  replace (- ea + (ea - ez)) with (- ez) by lia.
  replace (- eb + (eb - ez)) with (- ez) by lia. lia.
Qed.

Lemma of_uint64_0 : of_uint64 0 = S754_zero false.
Proof. reflexivity. Qed.

(** [float64(a) + float64(b) = float64(a + b)] while [a + b <= 2^53]. *)
Lemma add_exact (a b : N) :
  (a + b <= 2 ^ 53)%N -> add (of_uint64 a) (of_uint64 b) = of_uint64 (a + b).
Proof.
  intros Hab.
  destruct (N.eq_dec a 0%N) as [->|Ha]; destruct (N.eq_dec b 0%N) as [->|Hb].
  - reflexivity.
  - rewrite N.add_0_l, of_uint64_0, of_uint64_canon by lia. reflexivity.
  - rewrite N.add_0_r, of_uint64_0, of_uint64_canon by lia. reflexivity.
  - rewrite !of_uint64_canon by lia. rewrite N2Z.inj_add. apply add_canon; lia.
Qed.

Lemma to_Z_canon v : 0 < v <= 2 ^ 53 -> to_Z (canon v) = v.
Proof.
  intros Hv. pose proof (log2_bound v Hv) as Hl.
  pose proof (canon_mantissa_pos v Hv) as Hc.
  unfold canon, to_Z. cbn [cond_Zopp]. rewrite Z2Pos.id by assumption.
  destruct (Z.leb_spec 0 (Z.log2 v + 1 - prec)) as [Hd|Hd].
  - rewrite <- (Z.add_0_r (Z.log2 v + 1 - prec)).
    rewrite canon_mantissa_shift by lia. lia.
  - rewrite (canon_mantissa_unshift v 0) by lia.
    rewrite Z.add_0_r, Z.mul_1_r. apply Z.div_mul.
    apply Z.pow_nonzero; lia.
Qed.

(** Up to [2^53] the conversion loses nothing. *)
Lemma to_Z_of_uint64 (n : N) : (n <= 2 ^ 53)%N -> to_Z (of_uint64 n) = Z.of_N n.
Proof.
  intros Hn. destruct (N.eq_dec n 0%N) as [->|H0]; [reflexivity|].
  rewrite of_uint64_canon by lia. apply to_Z_canon.
  change (2 ^ 53) with (Z.of_N (2 ^ 53)). lia.
Qed.

Lemma of_uint64_inj (a b : N) :
  (a <= 2 ^ 53)%N -> (b <= 2 ^ 53)%N -> of_uint64 a = of_uint64 b -> a = b.
Proof.
  intros Ha Hb H. apply N2Z.inj. rewrite <- !to_Z_of_uint64 by assumption.
  now rewrite H.
Qed.

Lemma total_cons n ns : total (n :: ns) = (n + total ns)%N.
Proof. reflexivity. Qed.

Lemma total_app l1 l2 : total (l1 ++ l2) = (total l1 + total l2)%N.
Proof.
  induction l1 as [|x l1 IH]; [reflexivity|].
  rewrite <- app_comm_cons, !total_cons, IH. lia.
Qed.

(** Accumulation in any order is the exact total while it stays within
    [2^53]. *)
Lemma sum_from_exact (a : N) (ns : list N) :
  (a + total ns <= 2 ^ 53)%N ->
  sum_from (of_uint64 a) ns = of_uint64 (a + total ns).
Proof.
  revert a. induction ns as [|n ns IH]; intros a H.
  - cbn. now rewrite N.add_0_r.
  - rewrite total_cons in *. cbn [sum_from foldl].
    rewrite add_exact by lia. unfold sum_from in IH.
    rewrite IH by lia. f_equal. lia.
Qed.

Lemma float64_sum_exact (ns : list N) :
  (total ns <= 2 ^ 53)%N -> float64_sum ns = of_uint64 (total ns).
Proof.
  destruct ns as [|n ns]; [reflexivity|].
  rewrite total_cons. intros H. cbn [float64_sum]. now apply sum_from_exact.
Qed.

Lemma total_perm l1 l2 : l1 ≡ₚ l2 -> total l1 = total l2.
Proof.
  induction 1 as [|x l1 l2 _ IH|x y l|l1 l2 l3 _ IH1 _ IH2];
    rewrite ?total_cons; try rewrite IH; try lia; congruence.
Qed.
End Float64Facts.

(** ** The merge loop of [Collect] *)

Module ExporterFacts.
Import Float64 Float64Facts Iptables Exporter ExporterSpec.
Local Open Scope string_scope.

Lemma mergeRule_lookup_eq m r :
  mergeRule m r !! ruleRule r = accumulate (m !! ruleRule r) r.
Proof.
  unfold mergeRule, accumulate.
  destruct (m !! ruleRule r); now rewrite lookup_insert_eq.
Qed.

Lemma mergeRule_lookup_ne m r k :
  ruleRule r ≠ k -> mergeRule m r !! k = m !! k.
Proof.
  intros Hne. unfold mergeRule.
  destruct (m !! ruleRule r); now rewrite lookup_insert_ne.
Qed.

Lemma foldl_mergeRule_lookup rs m k :
  foldl mergeRule m rs !! k = foldl accumulate (m !! k) (rulesOf k rs).
Proof.
  revert m. induction rs as [|r rs IH]; intros m; [reflexivity|].
  cbn [foldl]. rewrite IH. unfold rulesOf. rewrite filter_cons.
  destruct (decide (ruleRule r = k)) as [<-|Hne].
  - cbn [foldl]. now rewrite mergeRule_lookup_eq.
  - now rewrite mergeRule_lookup_ne.
Qed.

Lemma foldl_accumulate_Some v rs :
  foldl accumulate (Some v) rs
  = Some {| bytes := sum_from (bytes v) (ruleBytes <$> rs);
            packets := sum_from (packets v) (rulePackets <$> rs) |}.
Proof.
  revert v. induction rs as [|r rs IH]; intros [b p]; [reflexivity|].
  cbn [foldl]. unfold accumulate at 2. now rewrite IH.
Qed.

(** What the loop leaves under key [k]: nothing when no rule has that
    identifier, the accumulated entry of its rules otherwise. *)
Lemma dedupRules_lookup rs k :
  dedupRules rs !! k
  = match rulesOf k rs with [] => None | _ => Some (mergedEntry (rulesOf k rs)) end.
Proof.
  unfold dedupRules. rewrite foldl_mergeRule_lookup, lookup_empty.
  destruct (rulesOf k rs) as [|r l]; [reflexivity|].
  cbn [foldl]. unfold accumulate at 2. now rewrite foldl_accumulate_Some.
Qed.

Lemma rulesOf_nil_iff k rs : rulesOf k rs = [] <-> k ∉ ruleRule <$> rs.
Proof.
  unfold rulesOf. rewrite list_elem_of_fmap. split.
  - intros Hnil (r & -> & Hr).
    assert (r ∈ filter (fun r0 => ruleRule r0 = ruleRule r) rs) as Hin
      by (apply list_elem_of_filter; auto).
    rewrite Hnil in Hin. now apply not_elem_of_nil in Hin.
  - intros Hno. destruct (filter _ rs) as [|r l] eqn:Hf; [reflexivity|].
    exfalso. apply Hno. exists r.
    assert (r ∈ filter (fun r0 => ruleRule r0 = k) rs) as Hin
      by (rewrite Hf; left).
    apply list_elem_of_filter in Hin as [-> Hin]. auto.
Qed.

(** The keys of the map are the identifiers of the chain. *)
Lemma dedupRules_dom rs :
  dom (dedupRules rs) = list_to_set (ruleRule <$> rs).
Proof.
  apply set_eq. intros k. rewrite elem_of_dom, elem_of_list_to_set.
  rewrite dedupRules_lookup. pose proof (rulesOf_nil_iff k rs) as Hnil.
  destruct (rulesOf k rs) as [|r l].
  - split; [intros [? ?]; discriminate|]. intros Hin. now apply Hnil in Hin.
  - split; [|eauto]. intros _. destruct (decide (k ∈ ruleRule <$> rs)); [assumption|].
    assert (r :: l = []) by now apply Hnil. discriminate.
Qed.

(** *** Lists of keyed entries *)




Lemma filter_nil_all {A} (P : A -> Prop) `{!forall x, Decision (P x)} (l : list A) :
  (forall x, x ∈ l -> ¬ P x) -> filter P l = [].
Proof.
  induction l as [|x l IH]; intros Hall; [reflexivity|].
  rewrite filter_cons, decide_False by (apply Hall; left).
  apply IH. intros y Hy. apply Hall. now right.
Qed.



(** *** Exact entries *)

Lemma mergedEntry_exact rs :
  (total (rulePackets <$> rs) <= 2 ^ 53)%N ->
  (total (ruleBytes <$> rs) <= 2 ^ 53)%N ->
  mergedEntry rs = exactEntry rs.
Proof.
  intros Hp Hb. unfold mergedEntry, exactEntry.
  now rewrite !float64_sum_exact.
Qed.

Lemma rulesOf_perm k rs rs' : rs ≡ₚ rs' -> rulesOf k rs ≡ₚ rulesOf k rs'.
Proof. intros H. unfold rulesOf. now rewrite H. Qed.





(** *** Order of the rules *)

Lemma dedupRules_exact_lookup rs k :
  withinExact k rs ->
  dedupRules rs !! k
  = match rulesOf k rs with [] => None | _ => Some (exactEntry (rulesOf k rs)) end.
Proof.
  intros [Hp Hb]. rewrite dedupRules_lookup.
  destruct (rulesOf k rs) as [|r l] eqn:E; [reflexivity|].
  f_equal. now apply mergedEntry_exact.
Qed.

Lemma exactEntry_perm rs rs' : rs ≡ₚ rs' -> exactEntry rs = exactEntry rs'.
Proof.
  intros H. unfold exactEntry.
  rewrite (total_perm (ruleBytes <$> rs) (ruleBytes <$> rs')) by now rewrite H.
  now rewrite (total_perm (rulePackets <$> rs) (rulePackets <$> rs')) by now rewrite H.
Qed.

Lemma withinExact_perm k rs rs' : rs ≡ₚ rs' -> withinExact k rs -> withinExact k rs'.
Proof.
  intros H [Hp Hb]. pose proof (rulesOf_perm k _ _ H) as Hk. split.
  - now rewrite <- (total_perm _ _ (fmap_Permutation rulePackets _ _ Hk)).
  - now rewrite <- (total_perm _ _ (fmap_Permutation ruleBytes _ _ Hk)).
Qed.

(** C3, as stated, fails: with packet counters [2^53], [1], [1] under one
    identifier the loop yields [2^53] packets, with the same rules in the
    order [1], [1], [2^53] it yields [2^53 + 2]. *)
Lemma dedup_order_sensitive :
  bigFirst ≡ₚ bigLast
  /\ to_Z <$> (packets <$> dedupRules bigFirst !! "allow") = Some (2 ^ 53)%Z
  /\ to_Z <$> (packets <$> dedupRules bigLast !! "allow") = Some (2 ^ 53 + 2)%Z
  /\ ¬ (forall rs rs', rs ≡ₚ rs' -> dedupRules rs = dedupRules rs').
Proof.
  assert (bigFirst ≡ₚ bigLast) as Hperm.
  { exact (Permutation_cons_append [mkRule 1 0 "allow"; mkRule 1 0 "allow"]
                                    (mkRule (2 ^ 53) 0 "allow")). }
  split; [exact Hperm|]. split; [vm_compute; reflexivity|].
  split; [vm_compute; reflexivity|].
  intros H. specialize (H _ _ Hperm).
  apply (f_equal (fun m => to_Z <$> (packets <$> m !! "allow"))) in H.
  vm_compute in H. discriminate.
Qed.

(** C3, amended. Reordering the rules of a chain never changes which
    identifiers get an entry, and leaves every entry unchanged whose rules
    stay within [2^53] in packets and in bytes; when that holds for every
    identifier the two maps, and the entries enumerated from them, are the
    same. *)
Theorem dedup_order_insensitive_exact (rs rs' : list Rule) :
  rs ≡ₚ rs' ->
  dom (dedupRules rs) = dom (dedupRules rs')
  /\ (forall k, withinExact k rs -> dedupRules rs !! k = dedupRules rs' !! k)
  /\ ((forall k, withinExact k rs) ->
      dedupRules rs = dedupRules rs'
      /\ map_to_list (dedupRules rs) ≡ₚ map_to_list (dedupRules rs')).
Proof.
  intros Hperm.
  assert (forall k, withinExact k rs -> dedupRules rs !! k = dedupRules rs' !! k)
    as Hlook.
  { intros k Hk. rewrite !dedupRules_exact_lookup
      by eauto using withinExact_perm.
    pose proof (rulesOf_perm k _ _ Hperm) as Hp.
    destruct (rulesOf k rs) as [|r l] eqn:E.
    - apply Permutation_nil_l in Hp. now rewrite <- Hp.
    - destruct (rulesOf k rs') as [|r' l'] eqn:E'.
      + now apply Permutation_nil_r in Hp.
      + f_equal. now apply exactEntry_perm. }
  split; [|split; [exact Hlook|]].
  - rewrite !dedupRules_dom. apply set_eq. intros k.
    rewrite !elem_of_list_to_set. now rewrite Hperm.
  - intros Hall. assert (dedupRules rs = dedupRules rs') as ->; [|easy].
    apply map_eq. intros k. now apply Hlook.
Qed.

Lemma dedup_order_insensitive_exact_witness :
  dedupRules [mkRule 1 2 "a"; mkRule 3 4 "b"; mkRule 5 6 "a"]
  = dedupRules [mkRule 5 6 "a"; mkRule 1 2 "a"; mkRule 3 4 "b"].
Proof.
  assert ([mkRule 1 2 "a"; mkRule 3 4 "b"; mkRule 5 6 "a"]
          ≡ₚ [mkRule 5 6 "a"; mkRule 1 2 "a"; mkRule 3 4 "b"]) as Hperm.
  { symmetry.
    exact (Permutation_cons_append [mkRule 1 2 "a"; mkRule 3 4 "b"]
                                   (mkRule 5 6 "a")). }
  refine (proj1 (proj2 (proj2 (dedup_order_insensitive_exact _ _ Hperm)) _)).
  intros k. unfold withinExact, rulesOf.
  rewrite !filter_cons, filter_nil.
  repeat case_decide; vm_compute; split; discriminate.
Defined.

(** *** Counter values *)

(** C10. Default-policy counters are the [float64] conversions of the
    chain's integer counters; the merged value of an identifier is the
    [float64] fold, by [float64] addition in rule order, of its rules'
    converted counters. The fold is the exact total while that total is at
    most [2^53]; beyond, it need not be: [2^53] then [1] accumulate to
    [2^53], not [2^53 + 1]. *)
Theorem counters_are_float64_folds (rules : list Rule) (k : string)
    (r : Rule) (rest : list Rule) (tableName chainName : string) (chain : Chain) :
  rulesOf k rules = r :: rest ->
  take 2 (chainMetrics tableName chainName chain)
    = [ MustNewConstMetric defaultPacketsDesc CounterValue
          (of_uint64 (Packets chain)) [tableName; chainName; Policy chain];
        MustNewConstMetric defaultBytesDesc CounterValue
          (of_uint64 (Bytes chain)) [tableName; chainName; Policy chain] ]
  /\ dedupRules rules !! k
     = Some {| bytes := foldl (fun a n => add a (of_uint64 n))
                              (of_uint64 (ruleBytes r)) (ruleBytes <$> rest);
               packets := foldl (fun a n => add a (of_uint64 n))
                                (of_uint64 (rulePackets r)) (rulePackets <$> rest) |}
  /\ (withinExact k rules ->
      exists v, dedupRules rules !! k = Some v
        /\ to_Z (packets v) = Z.of_N (total (rulePackets <$> r :: rest))
        /\ to_Z (bytes v) = Z.of_N (total (ruleBytes <$> r :: rest)))
  /\ to_Z <$> (packets <$> dedupRules [mkRule (2 ^ 53) 0 "allow"; mkRule 1 0 "allow"]
                              !! "allow") = Some (2 ^ 53)%Z.
Proof.
  intros Hk. split; [reflexivity|]. split; [|split].
  - rewrite dedupRules_lookup, Hk. reflexivity.
  - intros Hex. pose proof Hex as [Hp Hb]. rewrite Hk in Hp, Hb.
    exists (exactEntry (r :: rest)). split.
    + rewrite dedupRules_exact_lookup, Hk by assumption. reflexivity.
    + cbn [exactEntry packets bytes]. now rewrite !to_Z_of_uint64.
  - vm_compute. reflexivity.
Qed.

Lemma counters_are_float64_folds_witness :
  dedupRules [allow 10 100; allow 20 200; allow 5 50] !! "allow"
  = Some {| bytes := add (add (of_uint64 100) (of_uint64 200)) (of_uint64 50);
            packets := add (add (of_uint64 10) (of_uint64 20)) (of_uint64 5) |}.
Proof.
  exact (proj1 (proj2 (counters_are_float64_folds
           [allow 10 100; allow 20 200; allow 5 50] "allow"
           (allow 10 100) [allow 20 200; allow 5 50] "filter" "INPUT"
           (mkChain "ACCEPT" 0 0 []) eq_refl))).
Defined.

(** *** Conservation *)

Lemma sumZ_of_N (ns : list N) : sumZ (Z.of_N <$> ns) = Z.of_N (total ns).
Proof.
  induction ns as [|n ns IH]; [reflexivity|].
  rewrite fmap_cons, total_cons. cbn [sumZ foldr]. fold (sumZ (Z.of_N <$> ns)).
  rewrite IH. lia.
Qed.

Lemma total_filter_le {A} (g : A -> N) (P : A -> Prop)
    `{!forall x, Decision (P x)} (l : list A) :
  (total (g <$> filter P l) <= total (g <$> l))%N.
Proof.
  induction l as [|x l IH]; [reflexivity|].
  rewrite filter_cons. destruct (decide (P x));
    rewrite ?fmap_cons, ?total_cons; lia.
Qed.

(** Grouping by identifier loses no rule: the totals per key add up to the
    total of the rules whose key is listed. *)
Lemma total_by_keys (g : Rule -> N) (rules : list Rule) (keys : list string) :
  NoDup keys ->
  total ((fun k => total (g <$> rulesOf k rules)) <$> keys)
  = total (g <$> filter (fun r => ruleRule r ∈ keys) rules).
Proof.
  induction 1 as [|k keys Hk Hnd IH].
  - rewrite filter_nil_all; [reflexivity|]. intros r _ Hr. now apply elem_of_nil in Hr.
  - rewrite fmap_cons, total_cons, IH. clear IH. unfold rulesOf.
    induction rules as [|r rules IHr]; [reflexivity|].
    rewrite !filter_cons.
    destruct (decide (ruleRule r = k)) as [Heq|Hne].
    + rewrite (decide_False (P := ruleRule r ∈ keys)) by (rewrite Heq; exact Hk).
      rewrite (decide_True (P := ruleRule r ∈ k :: keys)) by (rewrite Heq; left).
      rewrite !fmap_cons, !total_cons. lia.
    + destruct (decide (ruleRule r ∈ keys)) as [Hin|Hout].
      * rewrite (decide_True (P := ruleRule r ∈ k :: keys)) by now right.
        rewrite !fmap_cons, !total_cons. lia.
      * rewrite (decide_False (P := ruleRule r ∈ k :: keys)); [exact IHr|].
        intros [?|?]%elem_of_cons; auto.
Qed.

Lemma filter_id_all {A} (P : A -> Prop) `{!forall x, Decision (P x)} (l : list A) :
  (forall x, x ∈ l -> P x) -> filter P l = l.
Proof.
  induction l as [|x l IH]; intros Hall; [reflexivity|].
  rewrite filter_cons, decide_True by (apply Hall; left).
  f_equal. apply IH. intros y Hy. apply Hall. now right.
Qed.

Lemma dedupRules_keys rules r :
  r ∈ rules -> ruleRule r ∈ (map_to_list (dedupRules rules)).*1.
Proof.
  intros Hr.
  assert (ruleRule r ∈ dom (dedupRules rules)) as Hd.
  { rewrite dedupRules_dom, elem_of_list_to_set.
    apply list_elem_of_fmap. now exists r. }
  apply elem_of_dom in Hd as [v Hv]. apply list_elem_of_fmap.
  exists (ruleRule r, v). split; [reflexivity|]. now apply elem_of_map_to_list.
Qed.

(** While the chain's total stays within [2^53], the aggregated counters
    add up to the total of the rules that were merged. *)
Lemma aggregated_exact (g : Rule -> N) (sel : ruleValues -> float64)
    (rules : list Rule) :
  (forall rs, sel (mergedEntry rs) = float64_sum (g <$> rs)) ->
  (total (g <$> rules) <= 2 ^ 53)%N ->
  sumZ ((fun e => to_Z (sel e.2)) <$> map_to_list (dedupRules rules))
  = Z.of_N (total (g <$> rules)).
Proof.
  intros Hsel Hbound.
  set (keys := (map_to_list (dedupRules rules)).*1).
  assert ((fun e => to_Z (sel e.2)) <$> map_to_list (dedupRules rules)
          = Z.of_N <$> ((fun k => total (g <$> rulesOf k rules)) <$> keys)) as ->.
  { unfold keys. rewrite <- !list_fmap_compose. apply list_fmap_ext.
    intros i [k v] Hi. cbn.
    apply list_elem_of_lookup_2, elem_of_map_to_list in Hi.
    rewrite dedupRules_lookup in Hi.
    destruct (rulesOf k rules) as [|r l] eqn:E; [discriminate|].
    injection Hi as <-. rewrite Hsel, float64_sum_exact, to_Z_of_uint64;
      try reflexivity; rewrite <- E;
      (etransitivity; [apply total_filter_le|exact Hbound]). }
  rewrite sumZ_of_N, total_by_keys by apply NoDup_fst_map_to_list.
  rewrite filter_id_all; [reflexivity|]. intros r Hr. now apply dedupRules_keys.
Qed.

Lemma deriveRules_total (g : Rule -> N) (h : RawRule -> N) identifier raw :
  (forall p b id body, g (mkRule p b id) = h (mkRawRule p b body)) ->
  (total (g <$> deriveRules identifier raw) <= total (h <$> raw))%N
  /\ (allMatch identifier raw ->
      total (g <$> deriveRules identifier raw) = total (h <$> raw)).
Proof.
  intros Hgh. unfold deriveRules, allMatch.
  induction raw as [|[p b body] raw [IHle IHeq]]; [split; reflexivity|].
  cbn [omap list_omap rawBody rawPackets rawBytes].
  rewrite fmap_cons, total_cons.
  destruct (identifier body) as [id|] eqn:Hid; cbn [mbind option_bind].
  - rewrite fmap_cons, total_cons, (Hgh p b id body). split; [lia|].
    intros Hall. rewrite IHeq; [reflexivity|].
    intros r Hr. apply Hall. now right.
  - split; [lia|]. intros Hall.
    destruct (Hall (mkRawRule p b body)) as [x Hx]; [left|].
    cbn in Hx. congruence.
Qed.

(** C2, as stated, fails: the two rules of [roundsUp] merge into one entry
    of [2^53 + 4] packets, more than the [2^53 + 3] of the raw rules. *)
Lemma conservation_fails_beyond_2_53 :
  aggregatedPackets (dedupRules (deriveRules matchEverything roundsUp))
  = (2 ^ 53 + 4)%Z
  /\ rawPacketsTotal roundsUp = (2 ^ 53 + 3)%Z
  /\ ¬ (forall identifier raw,
          (aggregatedPackets (dedupRules (deriveRules identifier raw))
           <= rawPacketsTotal raw)%Z).
Proof.
  split; [vm_compute; reflexivity|]. split; [vm_compute; reflexivity|].
  intros H. specialize (H matchEverything roundsUp).
  vm_compute in H. now apply H.
Qed.

(** C2, amended. While the chain's raw packet (byte) total is at most
    [2^53], the aggregated per-identifier packet (byte) counters add up to
    at most that total, and to exactly that total when the capture
    expression matches every rule of the chain. *)
Theorem counter_conservation (identifier : string -> option string)
    (raw : list RawRule) :
  let m := dedupRules (deriveRules identifier raw) in
  ((rawPacketsTotal raw <= 2 ^ 53)%Z ->
     (aggregatedPackets m <= rawPacketsTotal raw)%Z
     /\ (allMatch identifier raw -> aggregatedPackets m = rawPacketsTotal raw))
  /\ ((rawBytesTotal raw <= 2 ^ 53)%Z ->
     (aggregatedBytes m <= rawBytesTotal raw)%Z
     /\ (allMatch identifier raw -> aggregatedBytes m = rawBytesTotal raw)).
Proof.
  intros m.
  destruct (deriveRules_total rulePackets rawPackets identifier raw) as [Hple Hpeq];
    [reflexivity|].
  destruct (deriveRules_total ruleBytes rawBytes identifier raw) as [Hble Hbeq];
    [reflexivity|].
  unfold rawPacketsTotal, rawBytesTotal, aggregatedPackets, aggregatedBytes, m.
  split; intros Hbound.
  - rewrite (aggregated_exact rulePackets packets) by (reflexivity || lia).
    split; [lia|]. intros Hall. now rewrite Hpeq.
  - rewrite (aggregated_exact ruleBytes bytes) by (reflexivity || lia).
    split; [lia|]. intros Hall. now rewrite Hbeq.
Qed.

Lemma counter_conservation_witness :
  (aggregatedPackets (dedupRules (deriveRules matchEverything
     [mkRawRule 10 100 "allow A"; mkRawRule 20 200 "allow B"]))
   <= rawPacketsTotal [mkRawRule 10 100 "allow A"; mkRawRule 20 200 "allow B"])%Z.
Proof.
  refine (proj1 (proj1 (counter_conservation matchEverything
     [mkRawRule 10 100 "allow A"; mkRawRule 20 200 "allow B"]) _)).
  vm_compute. discriminate.
Defined.

(** *** The default capture expression *)

Lemma deriveRules_matchEverything raw :
  ruleRule <$> deriveRules matchEverything raw = rawBody <$> raw.
Proof.
  unfold deriveRules. induction raw as [|r raw IH]; [reflexivity|].
  cbn. now rewrite <- IH.
Qed.

Lemma size_list_to_set_le (l : list string) :
  size (list_to_set l : gset string) <= length l
  /\ (size (list_to_set l : gset string) = length l -> NoDup l).
Proof.
  induction l as [|x l [IHle IHnd]].
  - split; [reflexivity|]. intros _. constructor.
  - cbn [list_to_set length].
    destruct (decide (x ∈ l)) as [Hin|Hout].
    + rewrite (subseteq_union_1_L {[x]} (list_to_set l : gset string))
        by now apply singleton_subseteq_l, elem_of_list_to_set.
      split; [lia|]. intros Heq. lia.
    + rewrite size_union, size_singleton by set_solver.
      split; [lia|]. intros Heq. constructor; [exact Hout|]. apply IHnd. lia.
Qed.

Lemma dedupRules_size rules :
  size (dedupRules rules) = size (list_to_set (ruleRule <$> rules) : gset string).
Proof. now rewrite <- dedupRules_dom, size_dom. Qed.

(** C8, as stated, fails: with the default capture expression two rules of
    one chain that have the same body share their identifier and are merged
    into one entry. *)
Lemma default_pattern_collapses_equal_bodies :
  size (dedupRules (deriveRules matchEverything twice)) = 1
  /\ length twice = 2
  /\ ¬ (forall raw,
          size (dedupRules (deriveRules matchEverything raw)) = length raw).
Proof.
  split; [vm_compute; reflexivity|]. split; [reflexivity|].
  intros H. specialize (H twice). vm_compute in H. discriminate.
Qed.

(** C8, amended. With the default capture expression the identifiers of a
    chain are its rule bodies, so aggregation yields one entry per distinct
    rule body: never more entries than rules, and as many entries as rules
    exactly when the bodies of the chain are pairwise distinct. *)
Theorem default_pattern_entries (raw : list RawRule) :
  let m := dedupRules (deriveRules matchEverything raw) in
  dom m = list_to_set (rawBody <$> raw)
  /\ size m <= length raw
  /\ (size m = length raw <-> NoDup (rawBody <$> raw)).
Proof.
  intros m. unfold m.
  rewrite dedupRules_dom, dedupRules_size, deriveRules_matchEverything.
  destruct (size_list_to_set_le (rawBody <$> raw)) as [Hle Hnd].
  rewrite length_fmap in Hle, Hnd.
  split; [reflexivity|]. split; [exact Hle|]. split; [exact Hnd|].
  intros H. rewrite size_list_to_set by exact H. apply length_fmap.
Qed.
End ExporterFacts.
(** ** [Collect], [NewCollector] and [main] *)

Module CollectorFacts.
Import Float64 Float64Facts Iptables Exporter ExporterSpec ExporterFacts.
Local Open Scope string_scope.

Lemma chainMetrics_labels tableName chainName chain x :
  x ∈ chainMetrics tableName chainName chain ->
  take 2 (labelValues x) = [tableName; chainName] /\ isChainMetric x.
Proof.
  unfold chainMetrics, ruleMetrics, isChainMetric.
  rewrite elem_of_app, !elem_of_cons, elem_of_nil, list_elem_of_bind.
  intros [[->|[->|[]]]|([k v] & Hx & _)].
  - split; [reflexivity|]. cbn [desc]. auto.
  - split; [reflexivity|]. cbn [desc]. auto.
  - rewrite !elem_of_cons, elem_of_nil in Hx. destruct Hx as [->|[->|[]]];
      (split; [reflexivity|]); cbn [desc]; auto 6.
Qed.

Lemma tableMetrics_labels tableName (table : Table) x :
  x ∈ tableMetrics tableName table ->
  (exists chainName chain, table !! chainName = Some chain
     /\ x ∈ chainMetrics tableName chainName chain)
  /\ take 1 (labelValues x) = [tableName] /\ isChainMetric x.
Proof.
  unfold tableMetrics. rewrite list_elem_of_bind.
  intros ([cn ch] & Hx & Hin). apply elem_of_map_to_list in Hin.
  pose proof (chainMetrics_labels _ _ _ _ Hx) as [Hl Hd].
  split; [eauto|]. split; [|exact Hd].
  destruct (labelValues x) as [|a [|b l]]; try discriminate.
  cbn in Hl. injection Hl as -> ->. reflexivity.
Qed.

Lemma tablesMetrics_chain (tables : Tables) x :
  x ∈ tablesMetrics tables -> isChainMetric x.
Proof.
  unfold tablesMetrics. rewrite list_elem_of_bind.
  intros ([tn t] & Hx & _). now apply tableMetrics_labels in Hx.
Qed.

(** Every metric a scrape builds for a chain has as many label values as
    its descriptor has labels. *)
Lemma tablesMetrics_label_arity (tables : Tables) x :
  x ∈ tablesMetrics tables ->
  length (labelValues x) = length (variableLabels (desc x)).
Proof.
  unfold tablesMetrics, tableMetrics, chainMetrics, ruleMetrics.
  rewrite list_elem_of_bind. intros ([tn t] & Hx & _).
  rewrite list_elem_of_bind in Hx. destruct Hx as ([cn ch] & Hx & _).
  rewrite elem_of_app, !elem_of_cons, elem_of_nil, list_elem_of_bind in Hx.
  destruct Hx as [[->|[->|[]]]|([k v] & Hx & _)]; try reflexivity.
  rewrite !elem_of_cons, elem_of_nil in Hx.
  destruct Hx as [->|[->|[]]]; reflexivity.
Qed.

Lemma isChainMetric_not_success x : isChainMetric x -> desc x ≠ scrapeSuccessDesc.
Proof.
  unfold isChainMetric. rewrite !elem_of_cons, elem_of_nil.
  intros [->|[->|[->|[->|[]]]]]; discriminate.
Qed.



Section Scrape.
Context {Regexp : Type}.
Variable Compile : string -> Regexp + string.
Variable GetTables : Regexp -> Tables * option string.

(** C4. A scrape whose ruleset could not be obtained or parsed sends the
    duration gauge and the success gauge with value 0 and nothing else, so
    no default-policy and no per-identifier metric, and logs the error; a
    scrape that went through sends the success gauge exactly once, with
    value 1. *)
Theorem scrape_success_gauge (c : collector) (duration : float64)
    (tables : Tables) (err : option string) :
  GetTables (capture c) = (tables, err) ->
  let (metrics, logged) := Collect GetTables c duration in
  (forall e, scrapeError tables err = Some e ->
     metrics = [durationMetric duration; successMetric zero]
     /\ logged = [e]
     /\ filter isChainMetric metrics = [])
  /\ (forall e, err = Some e -> scrapeError tables err = Some e)
  /\ (scrapeError tables err = None ->
      filter (fun x => desc x = scrapeSuccessDesc) metrics = [successMetric one]
      /\ logged = [])
  /\ (err = None -> size tables ≠ 0 -> scrapeError tables err = None).
Proof.
  intros Hget. unfold Collect. rewrite Hget.
  assert (forall e, err = Some e -> scrapeError tables err = Some e) as Hfail
    by (intros e ->; reflexivity).
  assert (err = None -> size tables ≠ 0 -> scrapeError tables err = None) as Hok.
  { intros -> Hsize. cbn. now rewrite bool_decide_eq_false_2. }
  destruct (scrapeError tables err) as [e|] eqn:Herr.
  - split; [|split; [|split]].
    + intros e' [= <-]. repeat split.
    + exact Hfail.
    + discriminate.
    + exact Hok.
  - split; [|split; [|split]].
    + discriminate.
    + exact Hfail.
    + intros _. split; [|reflexivity].
      rewrite !filter_cons. cbn [desc].
      rewrite decide_False, decide_True by (reflexivity || discriminate).
      f_equal. apply filter_nil_all. intros x Hx.
      now apply isChainMetric_not_success, tablesMetrics_chain with tables.
    + reflexivity.
Qed.

Lemma Collect_label_arity (c : collector) (duration : float64) x :
  x ∈ (Collect GetTables c duration).1 ->
  length (labelValues x) = length (variableLabels (desc x)).
Proof.
  unfold Collect. destruct (GetTables (capture c)) as [tables err].
  destruct (scrapeError tables err); cbn [fst];
    rewrite !elem_of_cons, ?elem_of_nil;
    intros [->|[->|H]]; try reflexivity; try contradiction.
  now apply tablesMetrics_label_arity with tables.
Qed.

(** C5. An error-free result without any table is a failed scrape: the
    success gauge is 0, no other metric but the duration is sent, and the
    error logged is the one about missing output of [iptables-save]. *)
Theorem empty_result_is_failure (c : collector) (duration : float64)
    (tables : Tables) :
  GetTables (capture c) = (tables, None) -> size tables = 0 ->
  Collect GetTables c duration
  = ([durationMetric duration; successMetric zero], [noOutputError])
  /\ successMetric one ∉ (Collect GetTables c duration).1.
Proof.
  intros Hget Hsize. unfold Collect. rewrite Hget. cbn [scrapeError].
  rewrite bool_decide_eq_true_2 by exact Hsize. split; [reflexivity|].
  cbn [fst]. rewrite !elem_of_cons, elem_of_nil.
  intros [H|[H|[]]]; discriminate.
Qed.


(** C6. A capture expression that does not compile makes [NewCollector]
    panic, and [main] ends there: no collector is registered and the server
    is never started. One that compiles yields the collector holding the
    compiled expression, which [main] registers before it serves; from then
    on deriving identifiers cannot fail: a rule whose body does not match
    is left out, every other rule contributes under its identifier. *)
Theorem invalid_pattern_rejected_at_construction (flags : Flags) :
  (forall e, Compile (captureRE flags) = inr e ->
     (exists msg, NewCollector Compile (captureRE flags) = Panics msg
        /\ last (main Compile flags) = Some (Panic msg))
     /\ (forall addr, ListenAndServe addr ∉ main Compile flags)
     /\ (forall c', MustRegister c' ∉ main Compile flags))
  /\ (forall re, Compile (captureRE flags) = inl re ->
      NewCollector Compile (captureRE flags) = Returns {| capture := re |}
      /\ main Compile flags
         = [Infoln "Starting iptables_exporter"; Infoln "Build context";
            MustRegister {| capture := re |}; Handle (metricsPath flags);
            Handle "/"; Infoln "Listening on";
            ListenAndServe (listenAddress flags)])
  /\ (forall identifier raw r, r ∈ raw ->
      match identifier (rawBody r) with
      | Some id => mkRule (rawPackets r) (rawBytes r) id
                   ∈ deriveRules identifier raw
      | None => True
      end)
  /\ (forall identifier raw,
      length (deriveRules identifier raw)
      = length (filter (fun r => is_Some (identifier (rawBody r))) raw)).
Proof.
  split; [|split; [|split]].
  - intros e He. unfold main, NewCollector, MustCompile. rewrite He.
    split; [eexists; split; reflexivity|].
    split; intros x; cbn; rewrite !elem_of_cons, elem_of_nil;
      intros [H|[H|[H|[]]]]; discriminate.
  - intros re Hre. unfold main, NewCollector, MustCompile. rewrite Hre.
    split; reflexivity.
  - intros identifier raw r Hr. destruct (identifier (rawBody r)) as [id|] eqn:Hid;
      [|exact I].
    unfold deriveRules. apply list_elem_of_omap. exists r. split; [exact Hr|].
    now rewrite Hid.
  - intros identifier raw. unfold deriveRules.
    induction raw as [|r raw IH]; [reflexivity|].
    cbn [omap list_omap]. rewrite filter_cons.
    destruct (identifier (rawBody r)) as [id|] eqn:Hid; cbn [mbind option_bind].
    + rewrite decide_True by eauto. cbn [length]. now f_equal.
    + rewrite decide_False by (intros [? ?]; discriminate). exact IH.
Qed.
End Scrape.

Lemma scrape_success_gauge_witness :
  filter (fun x => desc x = scrapeSuccessDesc)
    (Collect (Regexp := unit) (fun _ => (filterOnly, None)) (mkCollector tt) zero).1
  = [successMetric one].
Proof.
  pose proof (scrape_success_gauge (Regexp := unit) (fun _ => (filterOnly, None))
                (mkCollector tt) zero filterOnly None eq_refl) as H.
  destruct (Collect _ _ _) as [metrics logged].
  exact (proj1 (proj1 (proj2 (proj2 H)) eq_refl)).
Defined.

Lemma empty_result_is_failure_witness :
  Collect (Regexp := unit) (fun _ => (∅, None)) (mkCollector tt) zero
  = ([durationMetric zero; successMetric zero], [noOutputError]).
Proof.
  exact (proj1 (empty_result_is_failure (Regexp := unit) (fun _ => (∅, None))
                  (mkCollector tt) zero ∅ eq_refl eq_refl)).
Defined.


Lemma invalid_pattern_rejected_at_construction_witness :
  (forall addr, ListenAndServe addr
     ∉ main noRegexp {| listenAddress := ":9455"; metricsPath := "/metrics";
                        captureRE := "(" |})
  /\ NewCollector noRegexp ".*" = Returns {| capture := tt |}.
Proof.
  split.
  - exact (proj1 (proj2 (proj1 (invalid_pattern_rejected_at_construction noRegexp
             {| listenAddress := ":9455"; metricsPath := "/metrics";
                captureRE := "(" |}) "missing closing )" eq_refl))).
  - exact (proj1 (proj1 (proj2 (invalid_pattern_rejected_at_construction noRegexp
             defaultFlags)) tt eq_refl)).
Defined.
End CollectorFacts.
(** ** The ruleset parser stops at the first malformed line *)

Module ParserFacts.
Import Iptables Parser.
Local Open Scope string_scope.

Lemma parseLines_accepts n st ls st' :
  parseLines n st ls = inr st' <-> accepts st ls = Some st'.
Proof.
  revert n st. induction ls as [|line ls IH]; intros n st; cbn.
  - split; congruence.
  - destruct (step st line) as [v|st1]; [split; discriminate|]. apply IH.
Qed.

Lemma parseLines_first_violation n st pre line post st' v :
  accepts st pre = Some st' -> step st' line = inl v ->
  parseLines n st (pre ++ line :: post)
  = inl (mkParseError (n + length pre) line v).
Proof.
  revert n st. induction pre as [|l pre IH]; intros n st Hacc Hstep.
  - injection Hacc as ->. cbn. rewrite Hstep. do 2 f_equal. lia.
  - cbn in Hacc |- *. destruct (step st l) as [?|st1]; [discriminate|].
    rewrite (IH (S n) st1 Hacc Hstep). do 2 f_equal. lia.
Qed.

Lemma parseLines_error_inv n st ls e :
  parseLines n st ls = inl e ->
  exists pre post st',
    ls = (pre ++ lineContent e :: post)%list
    /\ lineNumber e = n + length pre
    /\ accepts st pre = Some st'
    /\ step st' (lineContent e) = inl (violated e).
Proof.
  revert n st. induction ls as [|line ls IH]; intros n st H; [discriminate|].
  cbn in H. destruct (step st line) as [v|st1] eqn:Hstep.
  - injection H as <-. exists [], ls, st. cbn. repeat split; auto; lia.
  - destruct (IH _ _ H) as (pre & post & st' & -> & Hn & Hacc & Hv).
    exists (line :: pre), post, st'. cbn. rewrite Hstep.
    repeat split; auto; lia.
Qed.

Lemma parseLines_rejected_line n st ls line :
  (forall st0, exists v, step st0 line = inl v) -> In line ls ->
  exists e, parseLines n st ls = inl e.
Proof.
  intros Hbad. revert n st. induction ls as [|l ls IH]; intros n st Hin;
    [destruct Hin|].
  cbn. destruct (step st l) as [v|st1] eqn:Hstep; [eauto|].
  destruct Hin as [->|Hin]; [|now apply IH].
  destruct (Hbad st) as [v Hv]. congruence.
Qed.

Lemma trimRight_cons c s :
  isBlank c = false -> trimRight (String c s) ≠ "".
Proof. intros Hc. cbn. rewrite Hc. now destruct (trimRight s). Qed.

Lemma trim_colon rest : String.eqb (trim (String ":" rest)) "" = false.
Proof.
  apply String.eqb_neq. unfold trim. cbn [trimLeft].
  change (isBlank ":") with false. cbv iota. now apply trimRight_cons.
Qed.

(** A line that begins a chain declaration and does not have the shape
    [:<name> <policy> [<packets>:<bytes>]] is rejected in any context. *)
Lemma step_malformed_chain st rest :
  chainLine (String ":" rest) = None ->
  step st (String ":" rest) = inl MalformedChainLine.
Proof.
  intros Hbad. unfold step. rewrite trim_colon.
  cbv iota beta. now rewrite Hbad.
Qed.

(** A well-formed dump parses: one table, one chain, one rule. *)
Example parse_goodDump :
  parse goodDump
  = inr [("filter",
          {[ "INPUT" := mkRawChain (Some "ACCEPT") 10 100
                          [mkRawRule 3 30 "-A INPUT -j ACCEPT"] ]})].
Proof. vm_compute. reflexivity. Qed.

(** C9. The parser goes through the lines in order and stops at the first
    one that violates the grammar: the result is then the [ParseError] with
    that line's 1-based number, its content and the violated rule, and no
    [Ruleset]; every error the parser returns is of this kind. A chain line
    whose bracketed pair is not two colon-separated non-negative integers
    violates the grammar wherever it stands, so a dump that contains
    [:CHAIN ACCEPT [x:0]] does not parse. *)
Theorem parse_stops_at_first_malformed_line (rawText : string) :
  (forall pre line post st v,
     lines rawText = (pre ++ line :: post)%list ->
     accepts initial pre = Some st -> step st line = inl v ->
     parse rawText = inl (mkParseError (S (length pre)) line v))
  /\ (forall e, parse rawText = inl e ->
      exists pre post st,
        lines rawText = (pre ++ lineContent e :: post)%list
        /\ lineNumber e = S (length pre)
        /\ accepts initial pre = Some st
        /\ step st (lineContent e) = inl (violated e))
  /\ (forall e, parse rawText = inl e -> forall ruleset, parse rawText ≠ inr ruleset)
  /\ (forall st rest, chainLine (String ":" rest) = None ->
      step st (String ":" rest) = inl MalformedChainLine)
  /\ chainLine badChainLine = None
  /\ (In badChainLine (lines rawText) -> exists e, parse rawText = inl e)
  /\ parse badDump = inl (mkParseError 3 badChainLine MalformedChainLine).
Proof.
  split; [|split; [|split; [|split; [|split; [|split]]]]].
  - intros pre line post st v Hl Hacc Hstep. unfold parse.
    now rewrite Hl, (parseLines_first_violation 1 initial pre line post st v).
  - intros e He. unfold parse in He.
    destruct (parseLines 1 initial (lines rawText)) as [e'|st] eqn:Hp;
      [|discriminate].
    injection He as ->. apply parseLines_error_inv in Hp.
    destruct Hp as (pre & post & st & ? & ? & ? & ?). exists pre, post, st. auto.
  - intros e He ruleset. congruence.
  - intros st rest. apply step_malformed_chain.
  - reflexivity.
  - intros Hin. unfold parse.
    destruct (parseLines_rejected_line 1 initial (lines rawText) badChainLine)
      as [e He]; [|exact Hin|rewrite He; eauto].
    intros st0. exists MalformedChainLine. now apply step_malformed_chain.
  - vm_compute. reflexivity.
Qed.
End ParserFacts.
(** ** Further properties of the values [Collect] exports *)

Module ValueFacts.
Import Float64 Float64Facts Iptables Exporter ExporterSpec ExporterFacts ExtraSpec.
Local Open Scope Z_scope.

Lemma shr_1_nonneg r : 0 <= shr_m r -> 0 <= shr_m (shr_1 r).
Proof.
  destruct r as [m r s]. cbn [shr_m].
  destruct m as [|p|p]; [| |lia]; intros _; [reflexivity|].
  destruct p; cbn; lia.
Qed.

Lemma shr_nonneg r e n : 0 <= shr_m r -> 0 <= shr_m (shr r e n).1.
Proof.
  intros Hr. unfold shr. destruct n as [|p|p]; cbn [fst]; try assumption.
  rewrite iter_pos_nat. induction (Pos.to_nat p) as [|k IH]; [assumption|].
  cbn [Nat.iter]. now apply shr_1_nonneg.
Qed.

Lemma shr_fexp_nonneg m e l :
  0 <= m -> 0 <= shr_m (shr_fexp prec emax m e l).1.
Proof.
  intros Hm. unfold shr_fexp. apply shr_nonneg.
  destruct l as [|[]]; exact Hm.
Qed.

Lemma round_nearest_even_nonneg m l : 0 <= m -> 0 <= round_nearest_even m l.
Proof.
  intros Hm. destruct l as [|[]]; cbn; try lia.
  destruct (Z.even m); lia.
Qed.

Lemma binary_round_aux_nonneg m e l :
  0 <= m -> nonNegative (binary_round_aux prec emax false m e l).
Proof.
  intros Hm. unfold binary_round_aux.
  pose proof (shr_fexp_nonneg m e l Hm) as H1.
  destruct (shr_fexp prec emax m e l) as [mrs' e']. cbn [fst] in H1.
  pose proof (shr_fexp_nonneg _ e' loc_Exact
                (round_nearest_even_nonneg _ (loc_of_shr_record mrs') H1)) as H2.
  destruct (shr_fexp prec emax _ e' loc_Exact) as [mrs'' e'']. cbn [fst] in H2.
  destruct (shr_m mrs'') as [|p|p]; [exact I| |lia].
  now destruct (e'' <=? emax - prec).
Qed.

Lemma binary_round_nonneg m e : nonNegative (binary_round prec emax false m e).
Proof.
  unfold binary_round. destruct (shl_align _ _ _) as [mz ez].
  now apply binary_round_aux_nonneg.
Qed.

(** The conversion of a [uint64] is never NaN and never negative. *)
Lemma of_uint64_nonneg n : nonNegative (of_uint64 n).
Proof.
  unfold of_uint64. destruct n as [|p]; [exact I|]. apply binary_round_nonneg.
Qed.

(** Adding two such values gives such a value. *)
Lemma add_nonneg x y : nonNegative x -> nonNegative y -> nonNegative (add x y).
Proof.
  destruct x as [[]|[]| |[] mx ex], y as [[]|[]| |[] my ey];
    cbn; intros Hx Hy; try contradiction; try exact I.
  apply binary_round_nonneg.
Qed.

(** On such values [+] commutes. *)
Lemma add_comm_nonneg x y :
  nonNegative x -> nonNegative y -> add x y = add y x.
Proof.
  destruct x as [[]|[]| |[] mx ex], y as [[]|[]| |[] my ey];
    cbn; intros Hx Hy; try contradiction; try reflexivity.
  rewrite (Z.min_comm ey ex). f_equal. apply Z.add_comm.
Qed.

Lemma sum_from_nonneg acc ns : nonNegative acc -> nonNegative (sum_from acc ns).
Proof.
  revert acc. induction ns as [|n ns IH]; intros acc Hacc; [exact Hacc|].
  cbn. apply IH. apply add_nonneg; [exact Hacc|apply of_uint64_nonneg].
Qed.

Lemma float64_sum_nonneg ns : nonNegative (float64_sum ns).
Proof.
  destruct ns as [|n ns]; [exact I|]. apply sum_from_nonneg, of_uint64_nonneg.
Qed.

(** X7. Up to [2^53] the conversion [float64(n)] of a counter loses
    nothing: the value stands for [n], different counters give different
    values, and adding two converted counters whose total is within the
    bound gives the converted total. Beyond the bound this stops:
    [2^53 + 1] converts to the same value as [2^53]. *)
Theorem conversion_exact_up_to_2_53 (a b : N) :
  (a <= 2 ^ 53)%N ->
  to_Z (of_uint64 a) = Z.of_N a
  /\ ((b <= 2 ^ 53)%N -> of_uint64 a = of_uint64 b -> a = b)
  /\ ((a + b <= 2 ^ 53)%N -> add (of_uint64 a) (of_uint64 b) = of_uint64 (a + b))
  /\ of_uint64 (2 ^ 53 + 1) = of_uint64 (2 ^ 53).
Proof.
  intros Ha. split; [now apply to_Z_of_uint64|]. split; [|split].
  - intros Hb. now apply of_uint64_inj.
  - apply add_exact.
  - vm_compute. reflexivity.
Qed.

Lemma conversion_exact_up_to_2_53_witness :
  to_Z (of_uint64 (2 ^ 53)) = (2 ^ 53)%Z.
Proof.
  refine (proj1 (conversion_exact_up_to_2_53 (2 ^ 53) 0 _)).
  vm_compute. discriminate.
Defined.
End ValueFacts.

(** ** Further properties of the merge loop *)

Module MergeFacts.
Import Float64 Float64Facts Iptables Exporter ExporterSpec ExporterFacts.
Import ExtraSpec ValueFacts.
Local Open Scope string_scope.

Lemma rulesOf_app k rs1 rs2 :
  rulesOf k (rs1 ++ rs2) = (rulesOf k rs1 ++ rulesOf k rs2)%list.
Proof. unfold rulesOf. apply filter_app. Qed.

Lemma rulesOf_snoc_ne k rules r :
  ruleRule r ≠ k -> rulesOf k (rules ++ [r]) = rulesOf k rules.
Proof.
  intros Hne. rewrite rulesOf_app. unfold rulesOf at 2.
  rewrite filter_cons, decide_False, filter_nil by exact Hne. apply app_nil_r.
Qed.

Lemma rulesOf_snoc_eq rules r :
  rulesOf (ruleRule r) (rules ++ [r]) = (rulesOf (ruleRule r) rules ++ [r])%list.
Proof.
  rewrite rulesOf_app. unfold rulesOf at 2.
  now rewrite filter_cons, decide_True, filter_nil by reflexivity.
Qed.

(** X1. The loop looks at a chain only through its groups of rules with one
    identifier: two rule sequences in which every identifier has the same
    rules in the same relative order give the same [rulesCounters], whatever
    the size of the counters. Rules of different identifiers may be
    interleaved at will. *)
Theorem dedup_depends_on_groups (rs rs' : list Rule) :
  (forall k, rulesOf k rs = rulesOf k rs') -> dedupRules rs = dedupRules rs'.
Proof.
  intros Hgroups. apply map_eq. intros k.
  now rewrite !dedupRules_lookup, Hgroups.
Qed.

Lemma dedup_depends_on_groups_witness :
  dedupRules interleaved = dedupRules regrouped.
Proof.
  apply dedup_depends_on_groups. intros k. unfold rulesOf, interleaved, regrouped.
  rewrite !filter_cons, !filter_nil. cbn [ruleRule].
  repeat case_decide; try reflexivity; congruence.
Defined.

Lemma mergeRule_lookup_key m r k :
  ruleRule r = k -> mergeRule m r !! k = accumulate (m !! k) r.
Proof. intros <-. apply mergeRule_lookup_eq. Qed.

(** X2. The first two rules of a chain can always be exchanged: [float64]
    addition of two converted counters commutes, so an order dependence
    needs at least three rules of one identifier. *)
Theorem dedup_swap_first_two (r1 r2 : Rule) (rs : list Rule) :
  dedupRules (r1 :: r2 :: rs) = dedupRules (r2 :: r1 :: rs).
Proof.
  unfold dedupRules. cbn [foldl]. f_equal. apply map_eq. intros k.
  destruct (decide (ruleRule r1 = k)) as [H1|H1];
    destruct (decide (ruleRule r2 = k)) as [H2|H2].
  - rewrite !(mergeRule_lookup_key _ _ k), lookup_empty by assumption.
    unfold accumulate. cbn [bytes packets].
    do 2 f_equal; apply add_comm_nonneg; apply of_uint64_nonneg.
  - rewrite (mergeRule_lookup_ne _ r2 k), (mergeRule_lookup_key _ r1 k)
      by assumption.
    rewrite (mergeRule_lookup_key _ r1 k), (mergeRule_lookup_ne _ r2 k)
      by assumption.
    reflexivity.
  - rewrite (mergeRule_lookup_key _ r2 k), (mergeRule_lookup_ne _ r1 k)
      by assumption.
    rewrite (mergeRule_lookup_ne _ r1 k), (mergeRule_lookup_key _ r2 k)
      by assumption.
    reflexivity.
  - now rewrite !mergeRule_lookup_ne by assumption.
Qed.

(** X3. Chains compose: when two rule sequences share no identifier, the
    counters of their concatenation are the union of the counters of
    each. *)
Theorem dedup_app_disjoint (rs1 rs2 : list Rule) :
  (forall k, k ∈ identifiers rs1 -> k ∉ identifiers rs2) ->
  dedupRules (rs1 ++ rs2) = dedupRules rs1 ∪ dedupRules rs2.
Proof.
  intros Hdisj. apply map_eq. intros k.
  rewrite lookup_union, !dedupRules_lookup, rulesOf_app.
  destruct (rulesOf k rs1) as [|r l] eqn:E1.
  - cbn [app]. now destruct (rulesOf k rs2).
  - assert (rulesOf k rs2 = []) as ->.
    { apply rulesOf_nil_iff, Hdisj. unfold identifiers.
      destruct (decide (k ∈ ruleRule <$> rs1)) as [|Hno]; [assumption|].
      apply rulesOf_nil_iff in Hno. congruence. }
    now rewrite app_nil_r.
Qed.

Lemma dedup_app_disjoint_witness :
  dedupRules ([mkRule 1 2 "a"; mkRule 3 4 "a"] ++ [mkRule 5 6 "b"])
  = dedupRules [mkRule 1 2 "a"; mkRule 3 4 "a"] ∪ dedupRules [mkRule 5 6 "b"].
Proof.
  apply dedup_app_disjoint. intros k. unfold identifiers. cbn.
  rewrite !elem_of_cons, !elem_of_nil. intros [->|[->|[]]] [?|[]]; discriminate.
Defined.

(** X4. A rule whose identifier no other rule of the chain has is exported
    with its own counters, converted to [float64] and nothing added. *)
Theorem dedup_unshared_identifier (rules : list Rule) (r : Rule) :
  rulesOf (ruleRule r) rules = [r] ->
  dedupRules rules !! ruleRule r
  = Some {| bytes := of_uint64 (ruleBytes r);
            packets := of_uint64 (rulePackets r) |}.
Proof. intros H. now rewrite dedupRules_lookup, H. Qed.

Lemma dedup_unshared_identifier_witness :
  dedupRules interleaved !! "b"
  = Some {| bytes := of_uint64 9; packets := of_uint64 7 |}.
Proof.
  exact (dedup_unshared_identifier interleaved (mkRule 7 9 "b") eq_refl).
Defined.

(** X5. An identifier has an entry exactly when some rule of the chain
    carries it; there are never more entries than rules; and a further rule
    leaves the entries of all other identifiers as they were. *)
Theorem dedup_entries (rules : list Rule) (r : Rule) (k : string) :
  (dedupRules rules !! k = None <-> k ∉ identifiers rules)
  /\ size (dedupRules rules) <= length rules
  /\ (ruleRule r ≠ k ->
      dedupRules (rules ++ [r]) !! k = dedupRules rules !! k)
  /\ is_Some (dedupRules (rules ++ [r]) !! ruleRule r).
Proof.
  split; [|split; [|split]].
  - rewrite <- rulesOf_nil_iff, dedupRules_lookup.
    destruct (rulesOf k rules); split; congruence.
  - rewrite dedupRules_size.
    destruct (size_list_to_set_le (ruleRule <$> rules)) as [Hle _].
    now rewrite length_fmap in Hle.
  - intros Hne. now rewrite !dedupRules_lookup, rulesOf_snoc_ne.
  - rewrite dedupRules_lookup, rulesOf_snoc_eq.
    destruct (rulesOf (ruleRule r) rules); cbn; eauto.
Qed.

(** X6. No entry of [rulesCounters] is NaN or negative, in packets or in
    bytes. *)
Theorem dedup_values_nonneg (rules : list Rule) (k : string) (v : ruleValues) :
  dedupRules rules !! k = Some v ->
  nonNegative (packets v) /\ nonNegative (bytes v).
Proof.
  rewrite dedupRules_lookup. destruct (rulesOf k rules) as [|r l]; [discriminate|].
  intros [= <-]. split; apply float64_sum_nonneg.
Qed.

Lemma dedup_values_nonneg_witness :
  nonNegative (of_uint64 35) /\ nonNegative (of_uint64 350).
Proof.
  exact (dedup_values_nonneg [allow 10 100; allow 20 200; allow 5 50] "allow"
           {| bytes := of_uint64 350; packets := of_uint64 35 |} eq_refl).
Defined.
End MergeFacts.

(** ** Further properties of a scrape *)

Module ScrapeFacts.
Import Float64 Float64Facts Iptables Exporter ExporterSpec ExporterFacts.
Import CollectorFacts ExtraSpec ValueFacts MergeFacts.
Local Open Scope string_scope.

Lemma NoDup_bind_fmap {A X Y} (h : X -> Y) (g : A -> list X) (l : list A) :
  NoDup l ->
  (forall a, a ∈ l -> NoDup (h <$> g a)) ->
  (forall a b x y, a ∈ l -> b ∈ l -> x ∈ g a -> y ∈ g b -> h x = h y -> a = b) ->
  NoDup (h <$> (l ≫= g)).
Proof.
  induction 1 as [|a l Ha Hnd IH]; intros Heach Hcross; [constructor|].
  rewrite bind_cons, fmap_app. apply NoDup_app. split; [|split].
  - apply Heach. left.
  - intros z Hz Hz'.
    apply list_elem_of_fmap in Hz as (x & -> & Hx).
    apply list_elem_of_fmap in Hz' as (y & Hxy & Hy).
    apply list_elem_of_bind in Hy as (b & Hy & Hb).
    assert (a = b) as -> by (eapply Hcross; eauto; try left; now right).
    contradiction.
  - apply IH.
    + intros b Hb. apply Heach. now right.
    + intros b b' x y Hb Hb'. apply Hcross; now right.
Qed.

Lemma ruleMetrics_elem tableName chainName (m : ruleCounter) x :
  x ∈ ruleMetrics tableName chainName m <->
  exists k v, m !! k = Some v /\ x ∈ entryMetrics tableName chainName k v.
Proof.
  unfold ruleMetrics. rewrite list_elem_of_bind. split.
  - intros ([k v] & Hx & Hin). apply elem_of_map_to_list in Hin. eauto.
  - intros (k & v & Hk & Hx). exists (k, v).
    split; [exact Hx|]. now apply elem_of_map_to_list.
Qed.

Lemma entryMetrics_elem tableName chainName k v x :
  x ∈ entryMetrics tableName chainName k v <->
  x = MustNewConstMetric rulePacketsDesc CounterValue (packets v)
        [tableName; chainName; k]
  \/ x = MustNewConstMetric ruleBytesDesc CounterValue (bytes v)
        [tableName; chainName; k].
Proof.
  unfold entryMetrics, ruleLabels. rewrite !elem_of_cons, elem_of_nil. tauto.
Qed.

Lemma ruleMetrics_series_NoDup tableName chainName (m : ruleCounter) :
  NoDup (series <$> ruleMetrics tableName chainName m).
Proof.
  unfold ruleMetrics. apply NoDup_bind_fmap.
  - apply NoDup_map_to_list.
  - intros [k v] _. cbn. apply NoDup_cons. split.
    + rewrite elem_of_cons, elem_of_nil. intros [H|[]]. discriminate.
    + apply NoDup_singleton.
  - intros [k v] [k' v'] x y Ha Hb Hx Hy Hxy.
    rewrite !elem_of_cons, elem_of_nil in Hx, Hy.
    assert (k = k') as <-.
    { destruct Hx as [->|[->|[]]], Hy as [->|[->|[]]]; cbn in Hxy;
        inversion Hxy; reflexivity. }
    f_equal. apply elem_of_map_to_list in Ha, Hb. congruence.
Qed.

Lemma chainMetrics_elem tableName chainName chain x :
  x ∈ chainMetrics tableName chainName chain <->
  x = MustNewConstMetric defaultPacketsDesc CounterValue
        (of_uint64 (Packets chain)) [tableName; chainName; Policy chain]
  \/ x = MustNewConstMetric defaultBytesDesc CounterValue
        (of_uint64 (Bytes chain)) [tableName; chainName; Policy chain]
  \/ x ∈ ruleMetrics tableName chainName (dedupRules (Rules chain)).
Proof.
  unfold chainMetrics. rewrite elem_of_app, !elem_of_cons, elem_of_nil. tauto.
Qed.

Lemma ruleMetrics_desc tableName chainName (m : ruleCounter) x :
  x ∈ ruleMetrics tableName chainName m ->
  desc x = rulePacketsDesc \/ desc x = ruleBytesDesc.
Proof.
  intros (k & v & _ & Hx)%ruleMetrics_elem.
  apply entryMetrics_elem in Hx as [-> | ->]; auto.
Qed.

Lemma chainMetrics_series_NoDup tableName chainName chain :
  NoDup (series <$> chainMetrics tableName chainName chain).
Proof.
  unfold chainMetrics. rewrite fmap_app. cbn [fmap list_fmap app].
  apply NoDup_cons. split; [|apply NoDup_cons; split].
  - rewrite elem_of_cons. intros [H|H]; [discriminate|].
    apply list_elem_of_fmap in H as (x & Hs & Hx).
    apply ruleMetrics_desc in Hx. injection Hs as Hd _.
    destruct Hx as [Hx|Hx]; rewrite Hx in Hd; discriminate.
  - intros H. apply list_elem_of_fmap in H as (x & Hs & Hx).
    apply ruleMetrics_desc in Hx. injection Hs as Hd _.
    destruct Hx as [Hx|Hx]; rewrite Hx in Hd; discriminate.
  - apply ruleMetrics_series_NoDup.
Qed.

Lemma tableMetrics_series_NoDup tableName (table : Table) :
  NoDup (series <$> tableMetrics tableName table).
Proof.
  unfold tableMetrics. apply NoDup_bind_fmap.
  - apply NoDup_map_to_list.
  - intros [cn ch] _. apply chainMetrics_series_NoDup.
  - intros [cn ch] [cn' ch'] x y Ha Hb Hx Hy Hxy.
    apply chainMetrics_labels in Hx as [Hx _], Hy as [Hy _].
    injection Hxy as _ Hl. rewrite Hl in Hx.
    assert (cn = cn') as <- by congruence.
    f_equal. apply elem_of_map_to_list in Ha, Hb. congruence.
Qed.

Lemma tablesMetrics_series_NoDup (tables : Tables) :
  NoDup (series <$> tablesMetrics tables).
Proof.
  unfold tablesMetrics. apply NoDup_bind_fmap.
  - apply NoDup_map_to_list.
  - intros [tn t] _. apply tableMetrics_series_NoDup.
  - intros [tn t] [tn' t'] x y Ha Hb Hx Hy Hxy.
    apply tableMetrics_labels in Hx as (_ & Hx & _), Hy as (_ & Hy & _).
    injection Hxy as _ Hl. rewrite Hl in Hx.
    assert (tn = tn') as <- by congruence.
    f_equal. apply elem_of_map_to_list in Ha, Hb. congruence.
Qed.




Section Scrape.
Context {Regexp : Type}.
Variable GetTables : Regexp -> Tables * option string.

Lemma Collect_cases (c : collector) (duration : float64) :
  (exists e, Collect GetTables c duration
             = ([durationMetric duration; successMetric zero], [e]))
  \/ (exists tables, Collect GetTables c duration
                     = (durationMetric duration :: successMetric one
                          :: tablesMetrics tables, [])).
Proof.
  unfold Collect. destruct (GetTables (capture c)) as [tables err].
  destruct (scrapeError tables err); eauto.
Qed.

(** X10. No scrape sends two metrics of the same series: descriptor and
    label values together identify every metric of a scrape, which is what
    the registry that gathers them requires. *)
Theorem Collect_series_NoDup (c : collector) (duration : float64) :
  NoDup (series <$> (Collect GetTables c duration).1).
Proof.
  destruct (Collect_cases c duration) as [[e ->]|[tables ->]]; cbn [fst].
  - cbn. apply NoDup_cons. split; [|apply NoDup_singleton].
    rewrite elem_of_cons, elem_of_nil. intros [H|[]]. discriminate.
  - rewrite !fmap_cons.
    assert (forall d, d = scrapeDurationDesc \/ d = scrapeSuccessDesc ->
              (d, []) ∉ series <$> tablesMetrics tables) as Hfresh.
    { intros d Hd H. apply list_elem_of_fmap in H as (x & Hs & Hx).
      apply tablesMetrics_chain in Hx. injection Hs as Hdx _.
      unfold isChainMetric in Hx. rewrite <- Hdx in Hx.
      rewrite !elem_of_cons, elem_of_nil in Hx.
      destruct Hd as [-> | ->], Hx as [H|[H|[H|[H|[]]]]]; discriminate. }
    apply NoDup_cons. split; [|apply NoDup_cons; split].
    + rewrite elem_of_cons. intros [H|H]; [discriminate|].
      revert H. apply Hfresh. now left.
    + apply Hfresh. now right.
    + apply tablesMetrics_series_NoDup.
Qed.

(** X11. Whatever a scrape sends was announced by [Describe]; it carries as
    many label values as its descriptor has labels; the two scrape metrics
    are gauges and all others counters. *)
Theorem Collect_within_Describe (c : collector) (duration : float64)
    (x : Metric) :
  x ∈ (Collect GetTables c duration).1 ->
  desc x ∈ Describe c
  /\ length (labelValues x) = length (variableLabels (desc x))
  /\ (valueType x = GaugeValue
      <-> desc x = scrapeDurationDesc \/ desc x = scrapeSuccessDesc)
  /\ (valueType x = CounterValue <-> isChainMetric x).
Proof.
  intros Hx. split; [|split; [now apply (Collect_label_arity GetTables c duration)|]].
  - destruct (Collect_cases c duration) as [[e Hc]|[tables Hc]];
      rewrite Hc in Hx; cbn [fst] in Hx; unfold Describe;
      rewrite !elem_of_cons, ?elem_of_nil in Hx;
      rewrite !elem_of_cons, ?elem_of_nil.
    + destruct Hx as [->|[->|[]]]; cbn; auto.
    + destruct Hx as [->|[->|Hx]]; cbn; auto.
      apply tablesMetrics_chain in Hx. unfold isChainMetric in Hx.
      rewrite !elem_of_cons, elem_of_nil in Hx. tauto.
  - assert (x = durationMetric duration \/ (exists v, x = successMetric v)
            \/ (exists tables, x ∈ tablesMetrics tables)) as Hcase.
    { destruct (Collect_cases c duration) as [[e Hc]|[tables Hc]];
        rewrite Hc in Hx; cbn [fst] in Hx;
        rewrite !elem_of_cons, ?elem_of_nil in Hx.
      - destruct Hx as [->|[->|[]]]; eauto.
      - destruct Hx as [->|[->|Hx]]; eauto. }
    unfold isChainMetric. rewrite !elem_of_cons, elem_of_nil.
    destruct Hcase as [->|[[v ->]|[tables Ht]]].
    + cbn. split; split; auto; try discriminate.
      intros [H|[H|[H|[H|[]]]]]; discriminate.
    + cbn. split; split; auto; try discriminate.
      intros [H|[H|[H|[H|[]]]]]; discriminate.
    + unfold tablesMetrics in Ht. apply list_elem_of_bind in Ht as ([tn t] & Ht & _).
      unfold tableMetrics in Ht. apply list_elem_of_bind in Ht as ([cn ch] & Ht & _).
      apply chainMetrics_elem in Ht as [->|[->|Ht]].
      * cbn. split; split; auto; try discriminate. intros [H|H]; discriminate.
      * cbn. split; split; auto; try discriminate. intros [H|H]; discriminate.
      * apply ruleMetrics_elem in Ht as (k & v & _ & Ht).
        apply entryMetrics_elem in Ht as [-> | ->]; cbn;
          (split; split; auto 6; try discriminate); intros [H|H]; discriminate.
Qed.

(** X12. Apart from the duration, no value of a scrape is NaN or negative:
    the success gauge is 0 or 1, and every counter is a converted [uint64]
    or a [float64] sum of converted [uint64]s. *)
Theorem Collect_values_nonneg (c : collector) (duration : float64) (x : Metric) :
  x ∈ (Collect GetTables c duration).1 -> desc x ≠ scrapeDurationDesc ->
  nonNegative (value x).
Proof.
  intros Hx Hd.
  assert (forall tables, x ∈ tablesMetrics tables -> nonNegative (value x)) as Htab.
  { intros tables Ht.
    unfold tablesMetrics in Ht. apply list_elem_of_bind in Ht as ([tn t] & Ht & _).
    unfold tableMetrics in Ht. apply list_elem_of_bind in Ht as ([cn ch] & Ht & _).
    apply chainMetrics_elem in Ht as [->|[->|Ht]]; try apply of_uint64_nonneg.
    apply ruleMetrics_elem in Ht as (k & v & Hk & Ht).
    rewrite dedupRules_lookup in Hk.
    destruct (rulesOf k (Rules ch)) as [|r l]; [discriminate|].
    injection Hk as <-.
    apply entryMetrics_elem in Ht as [-> | ->]; apply float64_sum_nonneg. }
  destruct (Collect_cases c duration) as [[e Hc]|[tables Hc]];
    rewrite Hc in Hx; cbn [fst] in Hx; rewrite !elem_of_cons, ?elem_of_nil in Hx.
  - destruct Hx as [->|[->|[]]]; [now contradiction Hd|exact I].
  - destruct Hx as [->|[->|Hx]]; [now contradiction Hd|exact I|eauto].
Qed.

(** X13. Whatever the outcome, a scrape sends the duration gauge first and
    the success gauge second, each once, with the measured duration and
    with 0 or 1; everything after them is a metric of some chain. *)
Theorem Collect_shape (c : collector) (duration : float64) :
  exists v rest,
    (Collect GetTables c duration).1
    = durationMetric duration :: successMetric v :: rest
    /\ (v = zero /\ rest = [] \/ v = one)
    /\ Forall isChainMetric rest
    /\ length (Collect GetTables c duration).2 <= 1.
Proof.
  destruct (Collect_cases c duration) as [[e ->]|[tables ->]]; cbn [fst snd].
  - exists zero, []. repeat split; auto.
  - exists one, (tablesMetrics tables). repeat split; auto.
    apply Forall_forall. intros x Hx. now apply tablesMetrics_chain in Hx.
Qed.
End Scrape.

Lemma Collect_within_Describe_witness :
  desc (successMetric one)
  ∈ Describe (Regexp := unit) (mkCollector tt).
Proof.
  refine (proj1 (Collect_within_Describe (Regexp := unit)
                   (fun _ => (filterOnly, None)) (mkCollector tt) zero
                   (successMetric one) _)).
  vm_compute. right. left.
Defined.

Lemma Collect_values_nonneg_witness : nonNegative (value (successMetric one)).
Proof.
  refine (Collect_values_nonneg (Regexp := unit)
            (fun _ => (filterOnly, None)) (mkCollector tt) zero
            (successMetric one) _ _).
  - vm_compute. right. left.
  - discriminate.
Defined.
End ScrapeFacts.
